(** * MHS-CBAU: the cut-type / forest-type matrix script

    A shallow embedding of
    [scriptsToGenerateInputs/2.ProbabilityPrescriptionsMatrixFromQuebecData/
     3.ComputeFrequencyCutsPerForestTypeMatrix.py]:
    the classification functions, the overlay loop with its buffered writer,
    the checkpoint logic of the script and the two matrices.

    Conventions.
    - A pandas / fiona attribute value is an [option string]: [None] is a
      null (for which [pd.isna] holds), [Some s] a text value, on which
      [str] is the identity.  A string holds the UTF-8 bytes of a text;
      slicing is by character.
    - A float is given by its exact value, a rational ([Q]); the special
      values (NaN, infinities) are explicit in [fl]; the sign of a zero is
      not kept.  Module [Binary64] rounds as IEEE 754 binary64 does, and
      Module [Matrices] computes Steps 8 and 9 with it, as the script does.
      Module [Aggregator] gives the same matrices in exact arithmetic, to
      state what does not depend on the rounding of the operations.
    - A Python exception is a constructor of [PyExn]; a computation that
      can raise returns an [outcome], which carries the state reached when
      the exception was raised. *)

From Stdlib Require Import QArith Qminmax Qround Qabs Qpower Lqa ZArith Lia.
From Stdlib Require SpecFloat.
From stdpp Require Import gmap strings list fin_maps sorting.

Open Scope string_scope.
Open Scope list_scope.
Open Scope Z_scope.

(** ** Lookup tables and classification functions *)

Module Classifier.

(** A JSON object whose fields are text: one entry of
    [ShadeToleranceSpeciesQuebec.json] or [CutTypeCategories.json]. *)
Abbreviation entry := (gmap string string).
Abbreviation table := (gmap string (gmap string string)).

(** [pd.notna]. *)
Definition notna {A} (v : option A) : bool :=
  match v with Some _ => true | None => false end.

(** The number of bytes of the UTF-8 character whose first byte is [a]. *)
Definition utf8_width (a : Ascii.ascii) : nat :=
  let n := Ascii.nat_of_ascii a in
  if (n <? 192)%nat then 1%nat
  else if (n <? 224)%nat then 2%nat
  else if (n <? 240)%nat then 3%nat else 4%nat.

(** [s[:n]]: the first [n] characters of a text. *)
Fixpoint str_take (n : nat) (s : string) : string :=
  match n, s with
  | S n', String a _ =>
      let w := utf8_width a in
      String.append (String.substring 0 w s)
        (str_take n' (String.substring w (String.length s - w) s))
  | _, _ => EmptyString
  end.

(** [s[:2]]. *)
Definition prefix2 (s : string) : string := str_take 2 s.

Definition age_classes : list string :=
  ["10"; "20"; "30"; "40"; "50"; "60"; "70"; "80"; "90"; "100";
   "110"; "120"; "130"; "140"].

Definition reclassify_cl_age (cl_age : option string) : option string :=
  match cl_age with
  | Some a => if bool_decide (a ∈ age_classes) then Some "Even" else Some "Uneven"
  | None => None
  end.

Definition classify_shade_tolerance (shade_tolerance : table)
    (gr_ess : option string) : option string :=
  match gr_ess with
  | None => None
  | Some g =>
      let species_code := prefix2 g in
      match shade_tolerance !! species_code with
      | Some e =>
          let tolerance := default "Unknown" (e !! "tolerance_ombre") in
          Some (if String.eqb tolerance "Tolérant" then "Tol"
                else if String.eqb tolerance "Intolérant" then "Intol"
                else "Unknown")
      | None => Some "Unknown"
      end
  end.

(** Step 5: [row['PERTURB'] if pd.notna(row['PERTURB']) else row['ORIGINE']]. *)
Definition choose_cuttype (perturb origine : option string) : option string :=
  if notna perturb then perturb else origine.

(** Step 6. *)
Definition reclassify_cuttype (cut_categories : table)
    (cuttype : option string) : option string :=
  match cuttype with
  | None => None
  | Some cuttype_str =>
      match cut_categories !! cuttype_str with
      | Some e => Some (default cuttype_str (e !! "english_category"))
      | None => Some cuttype_str
      end
  end.

(** Step 7, on the two reclassified attributes of a stored fragment. *)
Definition classify_forest_type (cl_age gr_ess : option string) : string :=
  match cl_age, gr_ess with
  | None, _ => "Unknown/Unclassified"
  | _, None => "Unknown/Unclassified"
  | Some a, Some g =>
      if String.eqb g "Unknown" then "Unknown/Unclassified"
      else if String.eqb a "Even" && String.eqb g "Tol" then "Even/Tol"
      else if String.eqb a "Uneven" && String.eqb g "Tol" then "Uneven/Tol"
      else if String.eqb a "Even" && String.eqb g "Intol" then "Even/Intol"
      else if String.eqb a "Uneven" && String.eqb g "Intol" then "Uneven/Intol"
      else "Unknown/Unclassified"
  end.

Definition forest_types : list string :=
  ["Even/Tol"; "Uneven/Tol"; "Even/Intol"; "Uneven/Intol"; "Unknown/Unclassified"].

End Classifier.

Import Classifier.

(** ** Exceptions *)

Inductive PyExn :=
| NameError (name : string)   (* an unbound global is read or deleted *)
| IndexError                  (* positional access past the end *)
| GeometryError               (* [shape] rejects the feature's geometry *)
| TypeError.                  (* an operation that the values' type lacks *)

(** Result of a block of statements run from a state: it ends normally, or
    an exception escapes and the state is the one reached at that point. *)
Inductive outcome (S : Type) :=
| Done (s : S)
| Raised (e : PyExn) (s : S).
Arguments Done {S} s.
Arguments Raised {S} e s.

Definition state_of {S} (o : outcome S) : S :=
  match o with Done s => s | Raised _ s => s end.

Definition and_then {S} (o : outcome S) (k : S -> outcome S) : outcome S :=
  match o with Done s => k s | Raised e s => Raised e s end.

(** [for x in xs: body]. *)
Fixpoint for_each {A S} (body : A -> S -> outcome S) (xs : list A) (s : S)
    : outcome S :=
  match xs with
  | [] => Done s
  | x :: xs' => and_then (body x s) (for_each body xs')
  end.

(** ** The geometry engine (shapely, fiona) *)

Inductive Geom (P O : Type) :=
| Polygon (p : P)
| MultiPolygon (geoms : list P)
| GeometryCollection (members : list (P + O))   (* polygons and other pieces *)
| OtherGeometry (o : O).                        (* point, line, ... *)
Arguments Polygon {P O} p.
Arguments MultiPolygon {P O} geoms.
Arguments GeometryCollection {P O} members.
Arguments OtherGeometry {P O} o.

Class GeometryEngine := {
  Poly : Type;
  Other : Type;
  RawGeometry : Type;                                   (* feature['geometry'] *)
  shape : RawGeometry -> option (Geom Poly Other);      (* [None]: raises *)
  area : Geom Poly Other -> Q;
  is_empty : Geom Poly Other -> bool;
  intersection : Geom Poly Other -> Geom Poly Other -> Geom Poly Other;
  (** [STRtree(geoms).query(g, predicate='intersects')]. *)
  tree_query : list (Geom Poly Other) -> Geom Poly Other -> list nat;
}.

Definition Qlt_bool (x y : Q) : bool := negb (Qle_bool y x).

Definition BUFFER_SIZE : Z := 5000.

Module Overlay.
Section WithEngine.
Context {E : GeometryEngine}.

Abbreviation Geometry := (Geom Poly Other).

(** The eight attributes read from the intervention layer. *)
Record Attributes := {
  EXERCICE : option string;
  ORIGINE : option string;
  AN_ORIGINE : option string;
  PERTURB : option string;
  AN_PERTURB : option string;
  REB_ESS1 : option string;
  REB_ESS2 : option string;
  REB_ESS3 : option string;
}.

(** A row of [interv_fores_gdf]. *)
Record Intervention := {
  interv_geometry : Geometry;
  interv_attrs : Attributes;
}.

(** A feature of the inventory layer [PEE_ORI_PROV]. *)
Record Feature := {
  feat_geometry : RawGeometry;
  feat_CL_AGE : option string;
  feat_GR_ESS : option string;
  feat_CO_TER : option string;
}.

(** A record of the clipped dataset, as written by the overlay. *)
Record Fragment := {
  geometry : Geometry;
  attrs : Attributes;
  CL_AGE : option string;
  GR_ESS : option string;
  CO_TER : option string;
}.

Definition extract_polygons (geom : Geometry) : list Poly :=
  match geom with
  | MultiPolygon geoms => geoms
  | Polygon p => [p]
  | GeometryCollection _ | OtherGeometry _ => []
  end.

(** [str(v) if pd.notna(v) else None]. *)
Definition str_or_none (v : option string) : option string :=
  match v with Some s => Some s | None => None end.

Definition feature_out (poly : Poly) (interv_row : Intervention)
    (cl_age_reclass gr_ess_reclass co_ter : option string) : Fragment :=
  let a := interv_attrs interv_row in
  {| geometry := Polygon poly;
     attrs := {| EXERCICE := str_or_none (EXERCICE a);
                 ORIGINE := str_or_none (ORIGINE a);
                 AN_ORIGINE := str_or_none (AN_ORIGINE a);
                 PERTURB := str_or_none (PERTURB a);
                 AN_PERTURB := str_or_none (AN_PERTURB a);
                 REB_ESS1 := str_or_none (REB_ESS1 a);
                 REB_ESS2 := str_or_none (REB_ESS2 a);
                 REB_ESS3 := str_or_none (REB_ESS3 a) |};
     CL_AGE := cl_age_reclass;
     GR_ESS := gr_ess_reclass;
     CO_TER := str_or_none co_ter |}.

(** The variables of the loop: the buffer, the counter, and the records
    already handed to [dst.writerecords]. *)
Record LoopState := {
  buffer : list Fragment;
  count : Z;
  dst : list Fragment;
}.

Definition init_state : LoopState := {| buffer := []; count := 0; dst := [] |}.

(** Line 186. *)
Definition append_fragment (fo : Fragment) (st : LoopState) : LoopState :=
  {| buffer := buffer st ++ [fo]; count := count st; dst := dst st |}.

(** Line 187. *)
Definition bump_count (st : LoopState) : LoopState :=
  {| buffer := buffer st; count := count st + 1; dst := dst st |}.

(** Lines 190-192. *)
Definition flush_if_full (st : LoopState) : LoopState :=
  if BUFFER_SIZE <=? Z.of_nat (length (buffer st))
  then {| buffer := []; count := count st; dst := dst st ++ buffer st |}
  else st.

Definition accept (fo : Fragment) (st : LoopState) : LoopState :=
  flush_if_full (bump_count (append_fragment fo st)).

(** [for poly in polygons] (lines 165-192). *)
Definition poly_body (interv_row : Intervention)
    (cl_age_reclass gr_ess_reclass co_ter : option string)
    (poly : Poly) (st : LoopState) : outcome LoopState :=
  if Qlt_bool (area (Polygon poly)) 1 then Done st
  else Done (accept (feature_out poly interv_row cl_age_reclass gr_ess_reclass co_ter) st).

(** [for interv_idx in potential_idx] (lines 153-192).  [gdf] is the
    binding of the global [interv_fores_gdf] ([None]: unbound). *)
Definition candidate_body (gdf : option (list Intervention))
    (interv_geoms : list Geometry) (pee_geom : Geometry)
    (cl_age_reclass gr_ess_reclass co_ter : option string)
    (interv_idx : nat) (st : LoopState) : outcome LoopState :=
  match interv_geoms !! interv_idx with
  | None => Raised IndexError st
  | Some interv_geom =>
      let intersect_geom := intersection pee_geom interv_geom in
      if is_empty intersect_geom || Qlt_bool (area intersect_geom) 1 then Done st
      else
        match gdf with
        | None => Raised (NameError "interv_fores_gdf") st
        | Some rows =>
            match rows !! interv_idx with
            | None => Raised IndexError st
            | Some interv_row =>
                let polygons := extract_polygons intersect_geom in
                for_each (poly_body interv_row cl_age_reclass gr_ess_reclass co_ter)
                         polygons st
            end
        end
  end.

(** [for feature in src] (lines 137-192).  [interv_tree] is the binding of
    the globals [interv_geoms] and [interv_tree], which lines 43-46 bind
    together ([None]: unbound). *)
Definition feature_body (shade_tolerance : table)
    (gdf : option (list Intervention)) (interv_tree : option (list Geometry))
    (feature : Feature) (st : LoopState) : outcome LoopState :=
  match shape (feat_geometry feature) with
  | None => Raised GeometryError st
  | Some pee_geom =>
      let cl_age_reclass := reclassify_cl_age (feat_CL_AGE feature) in
      let gr_ess_reclass := classify_shade_tolerance shade_tolerance (feat_GR_ESS feature) in
      match interv_tree with
      | None => Raised (NameError "interv_tree") st
      | Some interv_geoms =>
          let potential_idx := tree_query interv_geoms pee_geom in
          if (length potential_idx =? 0)%nat then Done st
          else for_each (candidate_body gdf interv_geoms pee_geom
                           cl_age_reclass gr_ess_reclass (feat_CO_TER feature))
                        potential_idx st
      end
  end.

(** Lines 195-196: the records in the file when [dst] is closed after a
    normal end of the loop. *)
Definition final_flush (st : LoopState) : list Fragment :=
  match buffer st with
  | [] => dst st
  | _ :: _ => dst st ++ buffer st
  end.

(** The body of [with fiona.open(clipped_gpkg, 'w') as dst] (lines
    133-196).  The result holds the records of the file at its close and
    the counter; when an exception escapes, the buffer is not flushed. *)
Definition overlay_loop (shade_tolerance : table)
    (gdf : option (list Intervention)) (interv_tree : option (list Geometry))
    (src : list Feature) : outcome LoopState :=
  for_each (feature_body shade_tolerance gdf interv_tree) src init_state.

Definition records_at_close (o : outcome LoopState) : list Fragment :=
  match o with
  | Done st => final_flush st
  | Raised _ st => dst st
  end.

End WithEngine.
End Overlay.

(** ** Steps 8 and 9 in exact arithmetic

    The two matrices as they are when no operation rounds: sums, quotients
    and products are exact, and only the two calls to [round] round.  The
    matrices that the script computes, in binary64, are those of Module
    [Matrices] below, which shares the frames and the labels defined
    here. *)

Module Aggregator.

(** A float64 cell: a finite value or one of the special values that a
    division by zero produces. *)
Inductive fl :=
| Fin (q : Q)
| NaN
| PInf
| NInf.

Definition inf_of_sign (positive : bool) : fl := if positive then PInf else NInf.

Definition fl_div (a b : fl) : fl :=
  match a, b with
  | NaN, _ | _, NaN => NaN
  | Fin x, Fin y =>
      if Qeq_bool y 0
      then (if Qeq_bool x 0 then NaN else inf_of_sign (Qlt_bool 0 x))
      else Fin (x / y)
  | Fin _, (PInf | NInf) => Fin 0
  | PInf, Fin y => inf_of_sign (Qle_bool 0 y)
  | NInf, Fin y => inf_of_sign (Qlt_bool y 0)
  | (PInf | NInf), (PInf | NInf) => NaN
  end.

Definition fl_mul (a b : fl) : fl :=
  match a, b with
  | NaN, _ | _, NaN => NaN
  | Fin x, Fin y => Fin (x * y)
  | Fin x, PInf | PInf, Fin x =>
      if Qeq_bool x 0 then NaN else inf_of_sign (Qlt_bool 0 x)
  | Fin x, NInf | NInf, Fin x =>
      if Qeq_bool x 0 then NaN else inf_of_sign (Qlt_bool x 0)
  | PInf, PInf | NInf, NInf => PInf
  | PInf, NInf | NInf, PInf => NInf
  end.

Definition fl_add (a b : fl) : fl :=
  match a, b with
  | NaN, _ | _, NaN => NaN
  | Fin x, Fin y => Fin (x + y)
  | PInf, NInf | NInf, PInf => NaN
  | PInf, _ | _, PInf => PInf
  | NInf, _ | _, NInf => NInf
  end.

Definition isna (a : fl) : bool := match a with NaN => true | _ => false end.

(** [Series.sum()] with the default [skipna=True]. *)
Definition fl_sum (l : list fl) : fl :=
  foldr fl_add (Fin 0) (filter (fun a => isna a = false) l).

(** [fillna(0)]. *)
Definition fillna0 (a : fl) : fl := match a with NaN => Fin 0 | _ => a end.

(** Round to the nearest integer, ties to the even one. *)
Definition rint (q : Q) : Z :=
  let f := Qfloor q in
  match (q - inject_Z f ?= 1 # 2)%Q with
  | Lt => f
  | Gt => f + 1
  | Eq => if Z.even f then f else f + 1
  end.

(** [numpy.round(q, d)]: scale, round to an integer, scale back. *)
Definition round_dec (d : nat) (q : Q) : Q :=
  (inject_Z (rint (q * inject_Z (10 ^ Z.of_nat d))) / inject_Z (10 ^ Z.of_nat d))%Q.

Definition fl_round (d : nat) (a : fl) : fl :=
  match a with Fin q => Fin (round_dec d q) | _ => a end.

Definition Qsum (l : list Q) : Q := foldr Qplus 0%Q l.

(** The columns CUTTYPE, FOREST_TYPE and AREACUT of one row of
    [interv_clipped]. *)
Record Obs := {
  obs_cuttype : option string;
  obs_forest_type : string;
  obs_area : Q;
}.

(** A DataFrame of floats: row labels, column labels, cells. *)
Record Frame := {
  index : list string;
  columns : list string;
  cell : string -> string -> fl;
}.

Definition frame_map (f : fl -> fl) (m : Frame) : Frame :=
  {| index := index m; columns := columns m;
     cell := fun r c => f (cell m r c) |}.

Definition str_le (a b : string) : Prop := String.leb a b = true.

#[global] Instance str_le_dec a b : Decision (str_le a b).
Proof. unfold str_le. apply _. Defined.

(** The group keys, sorted and without duplicates, as [groupby] lists them. *)
Definition sorted_labels (l : list string) : list string :=
  merge_sort str_le (remove_dups l).

Definition has_cuttype (o : Obs) : Prop := obs_cuttype o <> None.

#[global] Instance has_cuttype_dec o : Decision (has_cuttype o).
Proof. unfold has_cuttype. apply _. Defined.

Definition in_group (r c : string) (o : Obs) : Prop :=
  obs_cuttype o = Some r /\ obs_forest_type o = c.

#[global] Instance in_group_dec r c o : Decision (in_group r c o).
Proof. unfold in_group. apply _. Defined.

(** [interv_clipped['AREACUT'].sum()]. *)
Definition total_area (df : list Obs) : Q := Qsum (obs_area <$> df).

Definition group_sum (df : list Obs) (r c : string) : Q :=
  Qsum (obs_area <$> filter (in_group r c) df).

(** [groupby(['CUTTYPE','FOREST_TYPE'])['AREACUT'].sum().unstack(fill_value=0)]:
    rows with a null CUTTYPE belong to no group. *)
Definition matrix (df : list Obs) : Frame :=
  let grouped := filter has_cuttype df in
  {| index := sorted_labels (omap obs_cuttype grouped);
     columns := sorted_labels (obs_forest_type <$> grouped);
     cell := fun r c => Fin (group_sum df r c) |}.

(** [matrix / total_area * 100], before rounding. *)
Definition matrix_pct_exact (df : list Obs) : Frame :=
  frame_map (fun a => fl_mul (fl_div a (Fin (total_area df))) (Fin 100)) (matrix df).

(** Lines 272-276: insert the missing forest types as 0.0, then select
    the five columns in their fixed order. *)
Definition with_forest_types (m : Frame) : Frame :=
  {| index := index m;
     columns := forest_types;
     cell := fun r c => if bool_decide (c ∈ columns m) then cell m r c else Fin 0 |}.

(** The frame written to [forest_cut_matrix.csv]. *)
Definition matrix_pct (df : list Obs) : Frame :=
  with_forest_types (frame_map (fl_round 2) (matrix_pct_exact df)).

Definition drop_column (name : string) (m : Frame) : Frame :=
  {| index := index m;
     columns := filter (fun c => c <> name) (columns m);
     cell := cell m |}.

Definition drop_row (name : string) (m : Frame) : Frame :=
  {| index := filter (fun r => r <> name) (index m);
     columns := columns m;
     cell := cell m |}.

Definition rows_to_remove : list string := ["Commercial thinning"; "Others"].

(** [m.sum(axis=0)[c]]. *)
Definition col_sum (m : Frame) (c : string) : fl :=
  fl_sum ((fun r => cell m r c) <$> index m).

(** [(matrix_pct / 100) * total_area] on the frame read back from the
    file, then lines 298-308. *)
Definition matrix_filtered (df : list Obs) : Frame :=
  let areas :=
    frame_map (fun a => fl_mul (fl_div a (Fin 100)) (Fin (total_area df)))
              (matrix_pct df) in
  foldl (fun m row_name => drop_row row_name m)
        (drop_column "Unknown/Unclassified" areas) rows_to_remove.

(** [m.div(m.sum(axis=0), axis=1)]. *)
Definition normalize_columns (m : Frame) : Frame :=
  {| index := index m; columns := columns m;
     cell := fun r c => fl_div (cell m r c) (col_sum m c) |}.

(** The frame written to [forest_cut_matrix_probabilities.csv]. *)
Definition matrix_prob (df : list Obs) : Frame :=
  frame_map (fl_round 4)
    (frame_map fillna0 (normalize_columns (matrix_filtered df))).

(** The value of a finite cell. *)
Definition fl_val (a : fl) : Q := match a with Fin q => q | _ => 0%Q end.

(** The cells of a frame, row by row. *)
Definition cells (m : Frame) : list fl :=
  r ← index m; (fun c => cell m r c) <$> columns m.

End Aggregator.

(** ** Binary64 arithmetic (IEEE 754), as Python and numpy compute

    An operation on floats returns the exact result rounded to the nearest
    binary64 value, ties to the even significand, and an infinity when
    that value would reach 2^1024. *)

Module Binary64.
Import Aggregator.

Definition pow2 (e : Z) : Q := (2 ^ e)%Q.

(** The exponent of the largest power of two that is at most [x], for a
    positive [x]. *)
Definition ilog2 (x : Q) : Z :=
  let k := Z.log2 (Qnum x) - Z.log2 (Zpos (Qden x)) in
  if Qle_bool (pow2 k) x then k else k - 1.

(** The exponent of the spacing of the binary64 values around [x]: 53
    significant bits, and for the subnormal values the spacing 2^-1074. *)
Definition quantum (x : Q) : Z := Z.max (ilog2 (Qabs x) - 52) (-1074).

(** The multiple of the spacing around [x] that is nearest to [x]. *)
Definition nearest (x : Q) : Q :=
  (inject_Z (rint (x / pow2 (quantum x))) * pow2 (quantum x))%Q.

(** The binary64 value of the number [x]. *)
Definition b64 (x : Q) : fl :=
  if Qeq_bool x 0 then Fin 0
  else if Qle_bool (pow2 1024) (Qabs (nearest x)) then inf_of_sign (Qlt_bool 0 x)
  else Fin (Qred (nearest x)).

Definition round64 (a : fl) : fl :=
  match a with Fin q => b64 q | _ => a end.

Definition f64_add (a b : fl) : fl := round64 (fl_add a b).
Definition f64_mul (a b : fl) : fl := round64 (fl_mul a b).
Definition f64_div (a b : fl) : fl := round64 (fl_div a b).

(** [numpy.rint]. *)
Definition fl_rint (a : fl) : fl :=
  match a with Fin q => Fin (inject_Z (rint q)) | _ => a end.

(** [numpy.round(a, d)] for [d >= 0], which [DataFrame.round(d)] applies
    to each cell: multiply by 10^d, round to an integer, divide by 10^d,
    each operation in binary64. *)
Definition np_round (d : nat) (a : fl) : fl :=
  let f := Fin (inject_Z (10 ^ Z.of_nat d)) in
  f64_div (fl_rint (f64_mul a f)) f.

(** The value of a float of the Standard Library's specification of
    IEEE 754 arithmetic, and the float of an integer there. *)
Definition of_spec_float (f : SpecFloat.spec_float) : fl :=
  match f with
  | SpecFloat.S754_zero _ => Fin 0
  | SpecFloat.S754_infinity s => if s then NInf else PInf
  | SpecFloat.S754_nan => NaN
  | SpecFloat.S754_finite s m e =>
      Fin (Qred ((if s then -1 else 1) * inject_Z (Zpos m) * pow2 e))
  end.

Definition spec_of_Z (n : Z) : SpecFloat.spec_float :=
  SpecFloat.binary_normalize 53 1024 n 0 false.

End Binary64.

(** ** Steps 8 and 9 as the script computes them *)

(** What Steps 8 and 9 take from pandas and numpy without the script
    fixing it: in which order (and with which compensation) each of the
    three sums adds its terms, and which labels [read_csv] keeps as text
    when it types the first column of the file. *)
Class Pandas := {
  series_sum : list Aggregator.fl -> Aggregator.fl;   (* [Series.sum()] *)
  groupby_sum : list Aggregator.fl -> Aggregator.fl;  (* [GroupBy.sum()], one group *)
  frame_sum : list Aggregator.fl -> Aggregator.fl;    (* [DataFrame.sum(axis=0)], one column *)
  (** [keeps_text labels s]: [read_csv] reads the label [s] of an index
      column holding [labels] as the text [s], not as a missing value, a
      number or a boolean. *)
  keeps_text : list string -> string -> bool;
}.

Module Matrices.
Import Aggregator Binary64.

(** A row label of a frame read from a CSV file: the text written, or
    what [read_csv] made of a text that it does not keep as text. *)
Inductive Label :=
| Text (s : string)
| Retyped (s : string).

#[global] Instance Label_eq_dec : EqDecision Label.
Proof. solve_decision. Defined.

(** The text of the label in the file. *)
Definition written (l : Label) : string :=
  match l with Text s | Retyped s => s end.

Record CsvFrame := {
  rows : list Label;
  cols : list string;
  value : Label -> string -> fl;
}.

Definition csv_map (f : fl -> fl) (m : CsvFrame) : CsvFrame :=
  {| rows := rows m; cols := cols m; value := fun l c => f (value m l c) |}.

Section WithPandas.
Context {P : Pandas}.

(** The column AREACUT: each area as a binary64 value. *)
Definition areas (df : list Obs) : list fl := (fun o => b64 (obs_area o)) <$> df.

(** [interv_clipped['AREACUT'].sum()]. *)
Definition total_area (df : list Obs) : fl := series_sum (areas df).

(** [groupby(['CUTTYPE','FOREST_TYPE'])['AREACUT'].sum().unstack(fill_value=0)]:
    rows with a null CUTTYPE belong to no group, and a pair of labels
    without rows gets the fill value. *)
Definition matrix (df : list Obs) : Frame :=
  let grouped := filter has_cuttype df in
  {| index := sorted_labels (omap obs_cuttype grouped);
     columns := sorted_labels (obs_forest_type <$> grouped);
     cell := fun r c =>
       match filter (in_group r c) df with
       | [] => Fin 0
       | group => groupby_sum (areas group)
       end |}.

(** Lines 268-276: the frame written to [forest_cut_matrix.csv]. *)
Definition matrix_pct (df : list Obs) : Frame :=
  with_forest_types
    (frame_map (np_round 2)
       (frame_map (fun a => f64_mul (f64_div a (total_area df)) (Fin 100))
                  (matrix df))).

Definition read_label (labels : list string) (s : string) : Label :=
  if keeps_text labels s then Text s else Retyped s.

(** [pd.read_csv(file, index_col=0)] of what [to_csv] wrote (lines 283 and
    290): a float is written with the digits that read back as the same
    float; a row keeps its cells whatever becomes of its label. *)
Definition read_csv (m : Frame) : CsvFrame :=
  {| rows := read_label (index m) <$> index m;
     cols := columns m;
     value := fun l c => cell m (written l) c |}.

(** [m.drop(columns=[name])], when [name] is a column. *)
Definition drop_columns (name : string) (m : CsvFrame) : CsvFrame :=
  {| rows := rows m; cols := filter (fun c => c <> name) (cols m);
     value := value m |}.

(** [m.drop(index=name)], when [name] is a row label. *)
Definition drop_index (name : string) (m : CsvFrame) : CsvFrame :=
  {| rows := filter (fun l => l <> Text name) (rows m); cols := cols m;
     value := value m |}.

(** Lines 290-308. *)
Definition matrix_filtered (df : list Obs) : CsvFrame :=
  let matrix_pct := read_csv (matrix_pct df) in
  let matrix :=
    csv_map (fun a => f64_mul (f64_div a (Fin 100)) (total_area df)) matrix_pct in
  foldl (fun m row_name => drop_index row_name m)
        (drop_columns "Unknown/Unclassified" matrix) rows_to_remove.

(** [m.sum(axis=0)[c]]. *)
Definition column_sum (m : CsvFrame) (c : string) : fl :=
  frame_sum ((fun l => value m l c) <$> rows m).

(** [m.div(m.sum(axis=0), axis=1)]. *)
Definition normalize_columns (m : CsvFrame) : CsvFrame :=
  {| rows := rows m; cols := cols m;
     value := fun l c => f64_div (value m l c) (column_sum m c) |}.

(** Lines 311-317: the frame written to
    [forest_cut_matrix_probabilities.csv]. *)
Definition matrix_prob (df : list Obs) : CsvFrame :=
  csv_map (np_round 4) (csv_map fillna0 (normalize_columns (matrix_filtered df))).

End WithPandas.
End Matrices.

(** ** The script, top to bottom *)

Notation "o >>> k" := (and_then o k) (at level 50, left associativity).

Module Script.
Section WithEngine.
Context {E : GeometryEngine} {P : Pandas}.
Import Overlay Aggregator.

(** A row of [interv_clipped] after Steps 4 to 6. *)
Record Row := {
  frag : Fragment;
  AREACUT : Q;
  CUTTYPE : option string;
}.

(** What [clipped_gpkg] holds: the records written by the overlay, or
    the rows saved at line 239 with their two added columns. *)
Inductive Dataset :=
| Clipped (records : list Fragment)
| Final (rows : list Row).

Inductive FileState :=
| Absent
| Corrupt                       (* present, but cannot be opened or parsed *)
| Stored (d : Dataset).

(** [Path(clipped_gpkg).exists()]. *)
Definition file_exists (f : FileState) : bool :=
  match f with Absent => false | _ => true end.

(** [pyogrio.read_dataframe(clipped_gpkg)]; the columns AREACUT and
    CUTTYPE of a saved file are overwritten by Steps 4 to 6 before they
    are read, so only the stored records are kept. *)
Definition read_dataframe (d : Dataset) : list Fragment :=
  match d with
  | Clipped records => records
  | Final rows => frag <$> rows
  end.

Record Inputs := {
  forest_cut_gdb : list Intervention;      (* layer INTERV_FORES_PROV *)
  forest_inv_gdb : list Feature;           (* layer PEE_ORI_PROV *)
  shade_tolerance : table;
  cut_categories : table;
}.

(** The file and the globals of the script; for the three variables
    [None] is an unbound name, except that [interv_clipped] is also
    [None] when it is bound to Python's [None].  [interv_geoms] stands for
    itself and for [interv_tree], bound together by lines 43-46. *)
Record Env := {
  clipped_gpkg : FileState;
  interv_fores_gdf : option (list Intervention);
  interv_geoms : option (list (Geom Poly Other));
  interv_clipped : option (list Fragment);
  forest_cut_matrix_csv : option Frame;
  forest_cut_matrix_probabilities_csv : option Matrices.CsvFrame;
}.

Definition start (file : FileState) : Env :=
  {| clipped_gpkg := file; interv_fores_gdf := None; interv_geoms := None;
     interv_clipped := None; forest_cut_matrix_csv := None;
     forest_cut_matrix_probabilities_csv := None |}.

Definition set_file (f : FileState) (env : Env) : Env :=
  {| clipped_gpkg := f; interv_fores_gdf := interv_fores_gdf env;
     interv_geoms := interv_geoms env; interv_clipped := interv_clipped env;
     forest_cut_matrix_csv := forest_cut_matrix_csv env;
     forest_cut_matrix_probabilities_csv := forest_cut_matrix_probabilities_csv env |}.

Definition set_gdf (g : option (list Intervention)) (env : Env) : Env :=
  {| clipped_gpkg := clipped_gpkg env; interv_fores_gdf := g;
     interv_geoms := interv_geoms env; interv_clipped := interv_clipped env;
     forest_cut_matrix_csv := forest_cut_matrix_csv env;
     forest_cut_matrix_probabilities_csv := forest_cut_matrix_probabilities_csv env |}.

Definition set_geoms (g : option (list (Geom Poly Other))) (env : Env) : Env :=
  {| clipped_gpkg := clipped_gpkg env; interv_fores_gdf := interv_fores_gdf env;
     interv_geoms := g; interv_clipped := interv_clipped env;
     forest_cut_matrix_csv := forest_cut_matrix_csv env;
     forest_cut_matrix_probabilities_csv := forest_cut_matrix_probabilities_csv env |}.

Definition set_clipped (c : option (list Fragment)) (env : Env) : Env :=
  {| clipped_gpkg := clipped_gpkg env; interv_fores_gdf := interv_fores_gdf env;
     interv_geoms := interv_geoms env; interv_clipped := c;
     forest_cut_matrix_csv := forest_cut_matrix_csv env;
     forest_cut_matrix_probabilities_csv := forest_cut_matrix_probabilities_csv env |}.

Definition set_csv (m : Frame) (p : Matrices.CsvFrame) (env : Env) : Env :=
  {| clipped_gpkg := clipped_gpkg env; interv_fores_gdf := interv_fores_gdf env;
     interv_geoms := interv_geoms env; interv_clipped := interv_clipped env;
     forest_cut_matrix_csv := Some m;
     forest_cut_matrix_probabilities_csv := Some p |}.

(** Lines 30-39: the intervention layer is read only when there is no
    clipped file. *)
Definition load_cuts (inp : Inputs) (env : Env) : outcome Env :=
  if negb (file_exists (clipped_gpkg env))
  then Done (set_gdf (Some (forest_cut_gdb inp)) env)
  else Done env.

(** Lines 43-46, at top level: they read [interv_fores_gdf] whether or
    not line 32 has bound it. *)
Definition build_index (env : Env) : outcome Env :=
  match interv_fores_gdf env with
  | None => Raised (NameError "interv_fores_gdf") env
  | Some gdf => Done (set_geoms (Some (interv_geometry <$> gdf)) env)
  end.

(** Lines 78-102. *)
Definition load_checkpoint (env : Env) : outcome Env :=
  if file_exists (clipped_gpkg env) then
    match interv_fores_gdf env with
    | None => Raised (NameError "interv_fores_gdf") env        (* line 79 *)
    | Some _ =>
        let env := set_gdf None env in
        match clipped_gpkg env with
        | Stored d => Done (set_clipped (Some (read_dataframe d)) env)
        | _ => Done (set_clipped None (set_file Absent env))    (* lines 96-100 *)
        end
    end
  else Done (set_clipped None env).

(** Lines 104-212: the file is opened for writing, the loop runs, the
    file is closed, [interv_fores_gdf] is deleted and the file is read. *)
Definition overlay_phase (inp : Inputs) (env : Env) : outcome Env :=
  match interv_clipped env with
  | Some _ => Done env
  | None =>
      let o := overlay_loop (shade_tolerance inp) (interv_fores_gdf env)
                            (interv_geoms env) (forest_inv_gdb inp) in
      let env := set_file (Stored (Clipped (records_at_close o))) env in
      match o with
      | Raised e _ => Raised e env
      | Done _ =>
          match interv_fores_gdf env with
          | None => Raised (NameError "interv_fores_gdf") env   (* line 202 *)
          | Some _ =>
              Done (set_clipped (Some (records_at_close o)) (set_gdf None env))
          end
      end
  end.

(** Steps 4 to 6 on one row. *)
Definition add_columns (cats : table) (f : Fragment) : Row :=
  {| frag := f;
     AREACUT := area (geometry f);
     CUTTYPE := reclassify_cuttype cats
                  (choose_cuttype (PERTURB (attrs f)) (ORIGINE (attrs f))) |}.

(** Step 7 and the three columns that Step 8 groups and sums. *)
Definition to_obs (row : Row) : Obs :=
  {| obs_cuttype := CUTTYPE row;
     obs_forest_type := classify_forest_type (CL_AGE (frag row)) (GR_ESS (frag row));
     obs_area := AREACUT row |}.

(** Lines 214-326.  [interv_clipped] is a DataFrame here.  On a frame
    without rows line 216 makes AREACUT a column of geometries, which
    line 217 cannot sum: the run stops there, before anything is saved. *)
Definition aggregate (inp : Inputs) (env : Env) : outcome Env :=
  match interv_clipped env with
  | None => Raised (NameError "interv_clipped") env
  | Some [] => Raised TypeError env                              (* line 217 *)
  | Some records =>
      let rows := add_columns (cut_categories inp) <$> records in
      let env := set_file (Stored (Final rows)) env in           (* line 239 *)
      let df := to_obs <$> rows in
      Done (set_csv (Matrices.matrix_pct df) (Matrices.matrix_prob df) env)
  end.

Definition run (inp : Inputs) (file : FileState) : outcome Env :=
  load_cuts inp (start file) >>> build_index >>> load_checkpoint
    >>> overlay_phase inp >>> aggregate inp.

(** Lines 78-326 alone, entered with [interv_fores_gdf] bound. *)
Definition run_from_checkpoint (inp : Inputs) (env : Env) : outcome Env :=
  load_checkpoint env >>> overlay_phase inp >>> aggregate inp.

End WithEngine.
End Script.

(** ** Reference definitions: the notions that the statements use *)

Module Reference.

(** The shade-tolerance rule, case by case. *)
Inductive shade_rule (dict : table) : option string -> option string -> Prop :=
| shade_null :
    shade_rule dict None None
| shade_absent g :
    dict !! prefix2 g = None ->
    shade_rule dict (Some g) (Some "Unknown")
| shade_tolerant g e :
    dict !! prefix2 g = Some e ->
    e !! "tolerance_ombre" = Some "Tolérant" ->
    shade_rule dict (Some g) (Some "Tol")
| shade_intolerant g e :
    dict !! prefix2 g = Some e ->
    e !! "tolerance_ombre" = Some "Intolérant" ->
    shade_rule dict (Some g) (Some "Intol")
| shade_other g e :
    dict !! prefix2 g = Some e ->
    e !! "tolerance_ombre" <> Some "Tolérant" ->
    e !! "tolerance_ombre" <> Some "Intolérant" ->
    shade_rule dict (Some g) (Some "Unknown").

(** The category of a code that is present: the English category of its
    entry when there is one, the code itself otherwise. *)
Definition canonical_category (cats : table) (code : string) : string :=
  match cats !! code with
  | Some e =>
      match e !! "english_category" with
      | Some category => category
      | None => code
      end
  | None => code
  end.

Section WithEngine.
Context {E : GeometryEngine}.
Import Overlay.

(** A pair is non-degenerate when its exact intersection is non-empty
    and has area at least 1. *)
Definition non_degenerate (g : Geom Poly Other) : Prop :=
  is_empty g = false /\ (1 <= area g)%Q.

#[global] Instance non_degenerate_dec g : Decision (non_degenerate g).
Proof.
  unfold non_degenerate.
  destruct (is_empty g); [right; intros [? _]; discriminate|].
  destruct (Qlt_le_dec (area g) 1) as [Hlt|Hle].
  - right. intros [_ H]. exact (Qlt_not_le _ _ Hlt H).
  - left. split; [reflexivity|exact Hle].
Defined.

Definition big_enough (p : Poly) : Prop := (1 <= area (Polygon p))%Q.

#[global] Instance big_enough_dec p : Decision (big_enough p).
Proof.
  unfold big_enough.
  destruct (Qlt_le_dec (area (Polygon p)) 1) as [Hlt|Hle].
  - right. intros H. exact (Qlt_not_le _ _ Hlt H).
  - left. exact Hle.
Defined.

(** The single polygons a geometry is made of, those of a collection
    included. *)
Definition constituent_polygons (g : Geom Poly Other) : list Poly :=
  match g with
  | Polygon p => [p]
  | MultiPolygon geoms => geoms
  | GeometryCollection members =>
      omap (fun m => match m with inl p => Some p | inr _ => None end) members
  | OtherGeometry _ => []
  end.

(** The single polygons of a Polygon or a MultiPolygon; any other geometry
    has none. *)
Definition polygonal_parts (g : Geom Poly Other) : list Poly :=
  match g with
  | Polygon p => [p]
  | MultiPolygon geoms => geoms
  | GeometryCollection _ | OtherGeometry _ => []
  end.

(** The fragments of one inventory polygon and one intervention: one per
    polygon of area at least 1 among those that [explode] finds in a
    non-degenerate intersection. *)
Definition pair_fragments_by (explode : Geom Poly Other -> list Poly)
    (shade : table) (pee_geom : Geom Poly Other)
    (f : Feature) (row : Intervention) : list Fragment :=
  let g := intersection pee_geom (interv_geometry row) in
  if decide (non_degenerate g)
  then (fun p => feature_out p row (reclassify_cl_age (feat_CL_AGE f))
                   (classify_shade_tolerance shade (feat_GR_ESS f))
                   (feat_CO_TER f))
         <$> filter big_enough (explode g)
  else [].

Definition pair_fragments := pair_fragments_by polygonal_parts.

(** The fragments of a stand and the intervention at position [idx]. *)
Definition fragments_at (shade : table) (rows : list Intervention)
    (pee : Geom Poly Other) (f : Feature) (idx : nat) : list Fragment :=
  match rows !! idx with
  | Some row => pair_fragments shade pee f row
  | None => []
  end.

(** The fragments of all pairs of the two layers. *)
Definition all_pairs_fragments_by (explode : Geom Poly Other -> list Poly)
    (shade : table) (rows : list Intervention)
    (src : list Feature) : list Fragment :=
  f ← src;
  match shape (feat_geometry f) with
  | Some pee_geom => row ← rows; pair_fragments_by explode shade pee_geom f row
  | None => []
  end.

Definition all_pairs_fragments := all_pairs_fragments_by polygonal_parts.

(** What is assumed of the spatial index, for the stand [pee]:
    it answers with positions of the intervention layer, each once, and
    misses no intervention whose intersection with [pee] is
    non-degenerate. *)
Definition index_answers (rows : list Intervention) (pee : Geom Poly Other) : Prop :=
  let q := tree_query (interv_geometry <$> rows) pee in
  NoDup q
  /\ (forall idx, idx ∈ q -> (idx < length rows)%nat)
  /\ (forall idx row, rows !! idx = Some row ->
        non_degenerate (intersection pee (interv_geometry row)) -> idx ∈ q).

(** Every state the loop variables go through while the fragments [l]
    are accepted one after the other from [st]: after line 186, after
    line 187 and after lines 190-192 of each. *)
Fixpoint points (l : list Fragment) (st : LoopState) : list LoopState :=
  match l with
  | [] => [st]
  | fo :: l' =>
      st :: append_fragment fo st :: bump_count (append_fragment fo st)
         :: points l' (accept fo st)
  end.

Definition within_cap (st : LoopState) : Prop :=
  Z.of_nat (length (buffer st)) <= BUFFER_SIZE.

(** The fragments accepted so far: those written, then those buffered. *)
Definition accepted (st : LoopState) : list Fragment := dst st ++ buffer st.

(** Accepting the fragments [l] one after the other. *)
Definition accept_all (l : list Fragment) (st : LoopState) : LoopState :=
  foldl (fun s fo => accept fo s) st l.

(** Between two fragments the buffer is strictly below the cap. *)
Definition below_cap (st : LoopState) : Prop :=
  Z.of_nat (length (buffer st)) < BUFFER_SIZE.

(** [st'] is reached from [st] by accepting fragments that satisfy [P]. *)
Definition reaches (P : Fragment -> Prop) (st st' : LoopState) : Prop :=
  exists l, st' = accept_all l st /\ Forall P l.

(** A stored fragment is a single polygon of area at least 1. *)
Definition single_big_polygon (fo : Fragment) : Prop :=
  exists p, geometry fo = Polygon p /\ (1 <= area (Polygon p))%Q.

End WithEngine.

Import Aggregator.

(** The area matrix without the Unknown/Unclassified column and the two
    excluded rows. *)
Definition area_matrix_filtered (df : list Obs) : Frame :=
  drop_row "Others"
    (drop_row "Commercial thinning"
       (drop_column "Unknown/Unclassified" (matrix df))).

(** The sum of the cells of a frame. *)
Definition sum_cells (m : Frame) : Q := Qsum (fl_val <$> cells m).

(** The area of the rows whose CUTTYPE is null. *)
Definition null_area (df : list Obs) : Q :=
  Qsum (obs_area <$> filter (fun o => ~ has_cuttype o) df).

Definition Qsum_over {A} (f : A -> Q) (l : list A) : Q := Qsum (f <$> l).

(** The value of a cell of the percentage matrix. *)
Definition pct_value (df : list Obs) (r c : string) : Q :=
  fl_val (cell (matrix_pct df) r c).

(** The rows of the percentage matrix that the probability matrix keeps. *)
Definition kept_rows (df : list Obs) : list string :=
  filter (fun r => r ∉ rows_to_remove) (index (matrix_pct df)).

(** The sum of a column of the percentage matrix over the kept rows. *)
Definition pct_column_sum (df : list Obs) (c : string) : Q :=
  Qsum_over (fun r => pct_value df r c) (kept_rows df).

(** What is assumed of a sum of the library: for fewer than 2^20 floats,
    each zero or at least 2^-1000 and of exact sum at most 2^1000, the
    result is finite and within [n * 2^-52] of the exact sum, relatively
    (the bound of a float summation of [n] terms, in whatever order). *)
Definition accurate_sum (sum : list fl -> fl) : Prop :=
  forall l : list Q,
    Forall (fun a => a == 0 \/ Binary64.pow2 (-1000) <= a)%Q l ->
    (Z.of_nat (length l) < 2 ^ 20)%Z ->
    (Qsum l <= Binary64.pow2 1000)%Q ->
    exists s, sum (Fin <$> l) = Fin s
      /\ (Qabs (s - Qsum l)
          <= inject_Z (Z.of_nat (length l)) * Binary64.pow2 (-52) * Qsum l)%Q.

(** What is assumed of [read_csv]: the two row names that Step 9 removes
    are read back as text. *)
Definition keeps_row_names {P : Pandas} : Prop :=
  forall labels name,
    name ∈ rows_to_remove -> name ∈ labels -> keeps_text labels name = true.

(** Half a unit of the fourth decimal, and a margin for the rounding of
    the float operations. *)
Definition tolerance : Q := 50001 # 1000000000.

(** An area as a binary64 value. *)
Definition area64 (o : Obs) : Q := fl_val (Binary64.b64 (obs_area o)).

(** The areas of a column of the filtered matrix, row by row. *)
Definition column_areas {P : Pandas} (df : list Obs) (c : string) : list Q :=
  (fun l => fl_val (Matrices.value (Matrices.matrix_filtered df) l c))
    <$> Matrices.rows (Matrices.matrix_filtered df).

End Reference.

(** ** A small geometry engine: unions of axis-parallel boxes *)

Module Boxes.

Record box := { xmin : Q; ymin : Q; xmax : Q; ymax : Q }.

Definition box_area (b : box) : Q := ((xmax b - xmin b) * (ymax b - ymin b))%Q.

Definition box_inter (a b : box) : box :=
  {| xmin := Qmax (xmin a) (xmin b); ymin := Qmax (ymin a) (ymin b);
     xmax := Qmin (xmax a) (xmax b); ymax := Qmin (ymax a) (ymax b) |}.

Definition proper (b : box) : bool :=
  Qlt_bool (xmin b) (xmax b) && Qlt_bool (ymin b) (ymax b).

(** A box reduced to a segment or a point. *)
Definition flat (b : box) : bool :=
  Qle_bool (xmin b) (xmax b) && Qle_bool (ymin b) (ymax b) && negb (proper b).

(** A geometry that is neither a polygon nor a multipolygon nor a
    collection is a number of segments and points; none is the empty
    geometry. *)
Abbreviation geom := (Geom box nat).

Definition parts (g : geom) : list box :=
  match g with
  | Polygon p => [p]
  | MultiPolygon l => l
  | GeometryCollection members =>
      omap (fun m => match m with inl p => Some p | inr _ => None end) members
  | OtherGeometry _ => []
  end.

(** The geometry made of the boxes [polys] and of [lines] segments or
    points, typed as the geometry library types its results. *)
Definition assemble (polys : list box) (lines : nat) : geom :=
  match polys, lines with
  | [], _ => OtherGeometry lines
  | [p], O => Polygon p
  | _, O => MultiPolygon polys
  | _, S _ => GeometryCollection ((inl <$> polys) ++ [inr lines])
  end.

Definition geom_inter (g h : geom) : geom :=
  let pieces := a ← parts g; b ← parts h; [box_inter a b] in
  assemble (List.filter proper pieces) (length (List.filter flat pieces)).

Definition geom_area (g : geom) : Q := Aggregator.Qsum (box_area <$> parts g).

Definition geom_is_empty (g : geom) : bool :=
  match g with
  | OtherGeometry O | MultiPolygon [] | GeometryCollection [] => true
  | _ => false
  end.

Definition query (geoms : list geom) (g : geom) : list nat :=
  fst <$> List.filter (fun ih => negb (geom_is_empty (geom_inter g (snd ih))))
                      (imap pair geoms).

(** A feature whose geometry is null makes [shape] raise. *)
#[global] Instance engine : GeometryEngine :=
  {| Poly := box; Other := nat; RawGeometry := option geom;
     shape := fun raw => raw; area := geom_area; is_empty := geom_is_empty;
     intersection := geom_inter; tree_query := query |}.

Definition square (x y side : Q) : box :=
  {| xmin := x; ymin := y; xmax := (x + side)%Q; ymax := (y + side)%Q |}.

End Boxes.

(** ** Sample data *)

Module Samples.
Import Overlay Aggregator Script Boxes.

Definition shade_table : table :=
  {[ "AB" := {[ "tolerance_ombre" := "Tolérant" ]};
     "PE" := {[ "tolerance_ombre" := "Intolérant" ]};
     "XX" := {[ "tolerance_ombre" := "Moyen" ]};
     "YY" := ∅ ]}.

Definition cut_table : table :=
  {[ "CT" := {[ "english_category" := "Commercial thinning" ]};
     "CPR" := {[ "english_category" := "Clearcut" ]};
     "ZZ" := ∅ ]}.

Definition no_attrs : Attributes :=
  {| EXERCICE := None; ORIGINE := None; AN_ORIGINE := None; PERTURB := None;
     AN_PERTURB := None; REB_ESS1 := None; REB_ESS2 := None; REB_ESS3 := None |}.

Definition attrs_of (origine perturb : option string) : Attributes :=
  {| EXERCICE := Some "2015"; ORIGINE := origine; AN_ORIGINE := None;
     PERTURB := perturb; AN_PERTURB := None;
     REB_ESS1 := None; REB_ESS2 := None; REB_ESS3 := None |}.

Definition stand (g : geom) : Feature :=
  {| feat_geometry := Some g; feat_CL_AGE := Some "60";
     feat_GR_ESS := Some "ABBB"; feat_CO_TER := None |}.

Definition cut (g : geom) (origine perturb : option string) : Intervention :=
  {| interv_geometry := g; interv_attrs := attrs_of origine perturb |}.

(** Two stands; three cuts: one overlaps the first stand on a unit
    square and on a sliver, one overlaps it on half a unit, one is far
    away. *)
Definition stands : list Feature :=
  [ stand (Polygon (square 0 0 2)); stand (Polygon (square 10 10 2)) ].

Definition cuts : list Intervention :=
  [ cut (MultiPolygon [square 1 1 3; square (-1) 0 (11 # 10)]) None (Some "CT");
    cut (Polygon (square (3 # 2) (-(1 # 2)) 1)) None None;
    cut (Polygon (square 50 50 5)) (Some "CPR") None ].

Definition inputs : Inputs :=
  {| forest_cut_gdb := cuts; forest_inv_gdb := stands;
     shade_tolerance := shade_table; cut_categories := cut_table |}.

(** A cut in two parts: one overlaps the first stand on a unit square, the
    other shares a piece of its left edge. *)
Definition touching_cuts : list Intervention :=
  [ cut (MultiPolygon [square 1 1 3; square (-1) 0 1]) None (Some "CT") ].

(** A stand whose geometry is null, and a stand and a cut that overlap
    on a quarter of a unit. *)
Definition null_stand : Feature :=
  {| feat_geometry := None; feat_CL_AGE := Some "60";
     feat_GR_ESS := Some "ABBB"; feat_CO_TER := None |}.

Definition sliver_cuts : list Intervention :=
  [ cut (Polygon (square (3 # 2) (-(1 # 2)) 1)) (Some "CPR") None ].

(** The fragment of the first stand and the first cut. *)
Definition first_fragment : Fragment :=
  feature_out (box_inter (square 0 0 2) (square 1 1 3))
    (cut (MultiPolygon [square 1 1 3; square (-1) 0 (11 # 10)]) None (Some "CT"))
    (Some "Even") (Some "Tol") None.

(** A large fragment with a cut type and a small one without. *)
Definition two_rows : list Obs :=
  [ {| obs_cuttype := Some "Clearcut"; obs_forest_type := "Even/Tol";
       obs_area := 1000000 |};
    {| obs_cuttype := None; obs_forest_type := "Even/Tol"; obs_area := 1 |} ].

(** A small fragment in one forest type and a large one in another. *)
Definition tiny_column : list Obs :=
  [ {| obs_cuttype := Some "Clearcut"; obs_forest_type := "Even/Tol";
       obs_area := 1 |};
    {| obs_cuttype := Some "Clearcut"; obs_forest_type := "Uneven/Tol";
       obs_area := 1000000 |} ].

(** A fragment without disturbance and origin codes. *)
Definition bare_fragment : Fragment :=
  {| geometry := Polygon (square 0 0 2); attrs := no_attrs;
     CL_AGE := Some "Even"; GR_ESS := Some "Tol"; CO_TER := None |}.

(** Sums that skip NaN and add the other terms from left to right, as
    numpy adds fewer than 8 terms. *)
Definition seq_sum (l : list fl) : fl :=
  foldl Binary64.f64_add (Fin 0) (filter (fun a => isna a = false) l).

(** The texts that [read_csv] reads as missing values. *)
Definition na_values : list string :=
  [""; "#N/A"; "#N/A N/A"; "#NA"; "-1.#IND"; "-1.#QNAN"; "-NaN"; "-nan";
   "1.#IND"; "1.#QNAN"; "<NA>"; "N/A"; "NA"; "NULL"; "NaN"; "None"; "n/a";
   "nan"; "null"].

Definition is_digit (a : Ascii.ascii) : bool :=
  let n := Ascii.nat_of_ascii a in (48 <=? n)%nat && (n <=? 57)%nat.

Definition digits_only (s : string) : bool :=
  negb (String.eqb s "") && forallb is_digit (String.list_ascii_of_string s).

(** A reader that keeps as text neither a missing-value marker nor any
    label of a column whose other labels are all whole numbers. *)
Definition sample_keeps_text (labels : list string) (s : string) : bool :=
  negb (bool_decide (s ∈ na_values))
  && negb (forallb digits_only (filter (fun x => x ∉ na_values) labels)).

#[global] Instance pandas : Pandas :=
  {| series_sum := seq_sum; groupby_sum := seq_sum; frame_sum := seq_sum;
     keeps_text := sample_keeps_text |}.

Definition obs (cuttype forest_type : string) (area : Q) : Obs :=
  {| obs_cuttype := Some cuttype; obs_forest_type := forest_type;
     obs_area := area |}.

(** Two cuts in one forest type, whose percentages are 0.03 and 1.57, and
    a commercial thinning in another. *)
Definition three_cuts : list Obs :=
  [ obs "Clearcut" "Even/Tol" 3; obs "Partial cut" "Even/Tol" 157;
    obs "Commercial thinning" "Uneven/Tol" 9840 ].

End Samples.

(** ** Further notions: provenance, order of writing, units *)

Module Coverage.
Section WithEngine.
Context {E : GeometryEngine}.
Import Overlay.

(** [fo] is the record that line 170 builds for a part [p], of area at
    least 1, of the intersection of a stand [f] of [src] with the
    intervention at a position [idx] that the index answered for that
    stand, the intersection being non-empty and of area at least 1. *)
Definition from_pair (shade : table) (rows : list Intervention)
    (geoms : list (Geom Poly Other)) (src : list Feature) (fo : Fragment) : Prop :=
  exists f pee idx row h p,
    f ∈ src /\ shape (feat_geometry f) = Some pee
    /\ idx ∈ tree_query geoms pee
    /\ rows !! idx = Some row /\ geoms !! idx = Some h
    /\ Reference.non_degenerate (intersection pee h)
    /\ p ∈ extract_polygons (intersection pee h)
    /\ Reference.big_enough p
    /\ fo = feature_out p row (reclassify_cl_age (feat_CL_AGE f))
               (classify_shade_tolerance shade (feat_GR_ESS f)) (feat_CO_TER f).

(** The records of the stands [src], stand after stand and, for each
    stand, candidate after candidate in the order of the index's answer. *)
Definition fragments_in_order (shade : table) (rows : list Intervention)
    (src : list Feature) : list Fragment :=
  f ← src;
  match shape (feat_geometry f) with
  | Some pee =>
      idx ← tree_query (interv_geometry <$> rows) pee;
      Reference.fragments_at shade rows pee f idx
  | None => []
  end.

(** Every answer of the index for the stands of [src] is a position of
    the intervention layer, and every stand decodes. *)
Definition answers_in_range (rows : list Intervention) (src : list Feature) : Prop :=
  forall f, f ∈ src ->
    exists pee, shape (feat_geometry f) = Some pee
      /\ forall idx, idx ∈ tree_query (interv_geometry <$> rows) pee ->
                     (idx < length rows)%nat.

(** The records handed to [writerecords] inside the loop come in batches
    of the size of the buffer. *)
Definition aligned_state (st : LoopState) : Prop :=
  Reference.below_cap st /\ exists k, 0 <= k /\ Z.of_nat (length (dst st)) = BUFFER_SIZE * k.

End WithEngine.

End Coverage.

(** ** The cut types of [3.ComputeCutSizeProbabilities.py] (lines 41-50) *)

Module CutSize.

(** The truth value of an attribute: null and the empty text are false. *)
Definition truthy (v : option string) : bool :=
  match v with
  | Some s => negb (String.eqb s "")
  | None => false
  end.

(** Line 44: [record['PERTURB'] if record['PERTURB'] else record['ORIGINE']]. *)
Definition create_cuttype (perturb origine : option string) : option string :=
  if truthy perturb then perturb else origine.

(** Lines 47-50: the code is replaced when it is a key of the dictionary
    whose entry has an [english_category]; null is never a key. *)
Definition reclassify (reclass_dict : table) (code : option string) : option string :=
  match code with
  | Some c =>
      match reclass_dict !! c with
      | Some e =>
          match e !! "english_category" with
          | Some category => Some category
          | None => code
          end
      | None => code
      end
  | None => code
  end.

Definition CUTTYPE (reclass_dict : table) (perturb origine : option string)
    : option string :=
  reclassify reclass_dict (create_cuttype perturb origine).

End CutSize.

(** * Properties *)

(** ** Classification *)

Section ClassifierFacts.
Import Reference.

Lemma tolerance_cases (t : string) :
  (t = "Tolérant" /\ String.eqb t "Tolérant" = true) \/
  (t = "Intolérant" /\ String.eqb t "Tolérant" = false
     /\ String.eqb t "Intolérant" = true) \/
  (t <> "Tolérant" /\ t <> "Intolérant" /\ String.eqb t "Tolérant" = false
     /\ String.eqb t "Intolérant" = false).
Proof.
  destruct (String.eqb_spec t "Tolérant") as [->|H1]; [left; done|].
  destruct (String.eqb_spec t "Intolérant") as [->|H2]; [right; left; done|].
  right; right; done.
Qed.

(** C9. The shade-tolerance classifier returns null for a null code; for
    any other code it looks up the first two characters in the tolerance
    dictionary and returns Tol when the entry's tolerance is "Tolérant",
    Intol when it is "Intolérant", and Unknown when the prefix is not in
    the dictionary or its tolerance is anything else (or missing). *)
Theorem classify_shade_tolerance_rule (dict : table) (gr_ess r : option string) :
  classify_shade_tolerance dict gr_ess = r <-> shade_rule dict gr_ess r.
Proof.
  split.
  - intros <-. destruct gr_ess as [g|]; simpl; [|constructor].
    destruct (dict !! prefix2 g) as [e|] eqn:He; [|by constructor].
    destruct (e !! "tolerance_ombre") as [t|] eqn:Ht; simpl.
    + destruct (tolerance_cases t) as [[-> ->]|[[-> [-> ->]]|(H1 & H2 & -> & ->)]].
      * by eapply shade_tolerant.
      * by eapply shade_intolerant.
      * eapply shade_other; [done| |]; rewrite Ht; congruence.
    + eapply shade_other; [done| |]; rewrite Ht; congruence.
  - intros H. destruct H as [|g Hg|g e Hg Ht|g e Hg Ht|g e Hg H1 H2]; simpl;
      try reflexivity; rewrite Hg; try rewrite Ht; try reflexivity.
    destruct (e !! "tolerance_ombre") as [t|]; simpl; [|reflexivity].
    destruct (tolerance_cases t) as [[-> _]|[[-> _]|(_ & _ & -> & ->)]];
      [congruence|congruence|reflexivity].
Qed.

Lemma classify_shade_tolerance_rule_witness :
  classify_shade_tolerance Samples.shade_table (Some "ABBB") = Some "Tol"
  /\ shade_rule Samples.shade_table (Some "XXYY") (Some "Unknown").
Proof.
  split.
  - apply (classify_shade_tolerance_rule Samples.shade_table (Some "ABBB") (Some "Tol")).
    eapply shade_tolerant; reflexivity.
  - apply (classify_shade_tolerance_rule Samples.shade_table (Some "XXYY") (Some "Unknown")).
    reflexivity.
Defined.

End ClassifierFacts.

(** ** Cut types *)

Section CutTypeFacts.
Context {E : GeometryEngine}.
Import Overlay Script Reference.

Lemma reclassify_cuttype_some cats code :
  reclassify_cuttype cats (Some code) = Some (canonical_category cats code).
Proof.
  unfold reclassify_cuttype, canonical_category.
  destruct (cats !! code) as [e|]; [|reflexivity].
  by destruct (e !! "english_category").
Qed.

Lemma cuttype_null_iff cats (f : Fragment) :
  CUTTYPE (add_columns cats f) = None
  <-> PERTURB (attrs f) = None /\ ORIGINE (attrs f) = None.
Proof.
  unfold add_columns, choose_cuttype; cbn -[reclassify_cuttype].
  destruct (PERTURB (attrs f)) as [p|], (ORIGINE (attrs f)) as [o|];
    cbn -[reclassify_cuttype]; rewrite ?reclassify_cuttype_some;
    split; try discriminate; try (intros [? ?]; discriminate); done.
Qed.

(** C6, as the code has it. The CutType of a fragment is the category of
    its disturbance code when that code is present, else the category of
    its origin code when that one is present, where the category of a code
    is the English category of its dictionary entry if the entry has one
    and the code itself otherwise; it is null exactly when both codes are
    null. *)
Theorem cuttype_of_fragment (cats : table) (f : Fragment) :
  CUTTYPE (add_columns cats f) =
    match PERTURB (attrs f), ORIGINE (attrs f) with
    | Some p, _ => Some (canonical_category cats p)
    | None, Some o => Some (canonical_category cats o)
    | None, None => None
    end
  /\ (CUTTYPE (add_columns cats f) = None
      <-> PERTURB (attrs f) = None /\ ORIGINE (attrs f) = None).
Proof.
  split; [|apply cuttype_null_iff].
  unfold add_columns, choose_cuttype; cbn -[reclassify_cuttype].
  destruct (PERTURB (attrs f)) as [p|], (ORIGINE (attrs f)) as [o|];
    cbn -[reclassify_cuttype]; by rewrite ?reclassify_cuttype_some.
Qed.

End CutTypeFacts.

(** C6 as stated fails: a fragment whose disturbance and origin codes are
    both null has a null CutType. *)
Lemma cuttype_null_counterexample :
  Overlay.PERTURB (Overlay.attrs Samples.bare_fragment) = None
  /\ Overlay.ORIGINE (Overlay.attrs Samples.bare_fragment) = None
  /\ Script.CUTTYPE (Script.add_columns Samples.cut_table Samples.bare_fragment) = None.
Proof. repeat split. Qed.

Lemma cuttype_of_fragment_witness :
  Script.CUTTYPE (Script.add_columns Samples.cut_table
     (Overlay.feature_out (Boxes.square 1 1 1)
        (Samples.cut (Polygon (Boxes.square 1 1 3)) (Some "CPR") (Some "CT"))
        (Some "Even") (Some "Tol") None))
  = Some "Commercial thinning".
Proof.
  exact (proj1 (cuttype_of_fragment Samples.cut_table
     (Overlay.feature_out (Boxes.square 1 1 1)
        (Samples.cut (Polygon (Boxes.square 1 1 3)) (Some "CPR") (Some "CT"))
        (Some "Even") (Some "Tol") None))).
Defined.

(** ** The overlay loop and its buffer *)

Section OverlayFacts.
Context {E : GeometryEngine}.
Import Overlay Reference.

Lemma Qlt_bool_true x y : Qlt_bool x y = true <-> (x < y)%Q.
Proof.
  unfold Qlt_bool. rewrite negb_true_iff. split.
  - intros H. apply Qnot_le_lt. intros Hle.
    apply Qle_bool_iff in Hle. congruence.
  - intros H. destruct (Qle_bool y x) eqn:Hb; [|reflexivity].
    apply Qle_bool_iff in Hb. exfalso. exact (Qlt_not_le _ _ H Hb).
Qed.

Lemma Qlt_bool_false x y : Qlt_bool x y = false <-> (y <= x)%Q.
Proof.
  unfold Qlt_bool. rewrite negb_false_iff. apply Qle_bool_iff.
Qed.

Lemma accepted_accept fo st : accepted (accept fo st) = accepted st ++ [fo].
Proof.
  unfold accept, flush_if_full, accepted; simpl.
  destruct (_ <=? _); simpl; by rewrite ?app_nil_r, ?app_assoc.
Qed.

Lemma count_accept fo st : count (accept fo st) = count st + 1.
Proof. unfold accept, flush_if_full; simpl. by destruct (_ <=? _). Qed.

Lemma accept_all_app l1 l2 st :
  accept_all (l1 ++ l2) st = accept_all l2 (accept_all l1 st).
Proof. unfold accept_all. apply foldl_app. Qed.

Lemma accepted_accept_all l st : accepted (accept_all l st) = accepted st ++ l.
Proof.
  revert st. induction l as [|fo l IH]; intros st; simpl.
  - by rewrite app_nil_r.
  - change (accepted (accept_all l (accept fo st)) = accepted st ++ fo :: l).
    rewrite IH, accepted_accept, <- app_assoc. reflexivity.
Qed.

Lemma count_accept_all l st :
  count (accept_all l st) = count st + Z.of_nat (length l).
Proof.
  revert st. induction l as [|fo l IH]; intros st; simpl; [lia|].
  change (count (accept_all l (accept fo st)) = count st + Z.of_nat (S (length l))).
  rewrite IH, count_accept. lia.
Qed.

Lemma below_cap_accept fo st : below_cap st -> below_cap (accept fo st).
Proof.
  unfold below_cap, accept, flush_if_full, BUFFER_SIZE; simpl.
  rewrite length_app; simpl. intros H.
  destruct (Z.leb_spec 5000 (Z.of_nat (length (buffer st) + 1))); simpl;
    rewrite ?length_app; simpl; lia.
Qed.

Lemma within_cap_points l st : below_cap st -> Forall within_cap (points l st).
Proof.
  revert st. induction l as [|fo l IH]; intros st Hst; simpl.
  - constructor; [|constructor]. unfold within_cap, below_cap in *. lia.
  - unfold below_cap in Hst.
    repeat constructor; unfold within_cap, BUFFER_SIZE in *; simpl;
      rewrite ?length_app; simpl; try lia.
    apply IH, below_cap_accept, Hst.
Qed.

Lemma final_flush_accepted st : final_flush st = accepted st.
Proof.
  unfold final_flush, accepted. destruct (buffer st); [by rewrite app_nil_r|done].
Qed.

Lemma reaches_refl P st : reaches P st st.
Proof. exists []. split; [reflexivity|constructor]. Qed.

Lemma reaches_trans P st1 st2 st3 :
  reaches P st1 st2 -> reaches P st2 st3 -> reaches P st1 st3.
Proof.
  intros (l1 & -> & H1) (l2 & -> & H2). exists (l1 ++ l2).
  split; [by rewrite accept_all_app|by apply Forall_app].
Qed.

Lemma reaches_for_each {A} P (body : A -> LoopState -> outcome LoopState) xs st :
  (forall x s, reaches P s (state_of (body x s))) ->
  reaches P st (state_of (for_each body xs st)).
Proof.
  intros Hbody. revert st. induction xs as [|x xs IH]; intros st; simpl.
  - apply reaches_refl.
  - specialize (Hbody x st). destruct (body x st) as [s|e s]; simpl in *.
    + eapply reaches_trans; [exact Hbody|apply IH].
    + exact Hbody.
Qed.

(** The loop over the parts of one intersection keeps each part of area
    at least 1 and drops the others. *)
Lemma poly_loop row a g c polys st :
  for_each (poly_body row a g c) polys st
  = Done (accept_all ((fun p => feature_out p row a g c) <$> filter big_enough polys) st).
Proof.
  revert st. induction polys as [|p polys IH]; intros st; [reflexivity|].
  simpl. unfold poly_body at 1.
  destruct (Qlt_bool (area (Polygon p)) 1) eqn:Hb; simpl.
  - apply Qlt_bool_true in Hb. rewrite IH.
    rewrite filter_cons_False; [reflexivity|].
    unfold big_enough. intros H. exact (Qlt_not_le _ _ Hb H).
  - apply Qlt_bool_false in Hb. rewrite IH.
    rewrite filter_cons_True by exact Hb. reflexivity.
Qed.

Lemma feature_out_single_big p row a g c :
  big_enough p -> single_big_polygon (feature_out p row a g c).
Proof. intros H. exists p. split; [reflexivity|exact H]. Qed.

Lemma reaches_candidate gdf geoms pee a g c idx st :
  reaches single_big_polygon st (state_of (candidate_body gdf geoms pee a g c idx st)).
Proof.
  unfold candidate_body.
  destruct (geoms !! idx) as [h|]; [|apply reaches_refl].
  destruct (_ || _); [apply reaches_refl|].
  destruct gdf as [rows|]; [|apply reaches_refl].
  destruct (rows !! idx) as [row|]; [|apply reaches_refl].
  rewrite poly_loop. simpl. eexists. split; [reflexivity|].
  apply Forall_fmap, Forall_forall. intros p Hp.
  apply list_elem_of_filter in Hp as [Hp _].
  by apply feature_out_single_big.
Qed.

Lemma reaches_feature shade gdf tree f st :
  reaches single_big_polygon st (state_of (feature_body shade gdf tree f st)).
Proof.
  unfold feature_body.
  destruct (shape (feat_geometry f)) as [pee|]; [|apply reaches_refl].
  destruct tree as [geoms|]; [|apply reaches_refl].
  destruct (_ =? _)%nat; [apply reaches_refl|].
  apply reaches_for_each. intros idx s. apply reaches_candidate.
Qed.

Lemma reaches_overlay shade gdf tree src :
  reaches single_big_polygon init_state (state_of (overlay_loop shade gdf tree src)).
Proof.
  unfold overlay_loop. apply reaches_for_each. intros f s. apply reaches_feature.
Qed.

Lemma records_at_close_accepted (o : outcome LoopState) :
  records_at_close o ⊆ accepted (state_of o).
Proof.
  destruct o as [st|e st]; simpl.
  - rewrite final_flush_accepted. done.
  - unfold accepted. intros x Hx. apply elem_of_app. by left.
Qed.

End OverlayFacts.

Section BufferAndCounter.
Context {E : GeometryEngine}.
Import Overlay Script Reference.

Lemma overlay_state shade gdf tree src :
  let st := state_of (overlay_loop shade gdf tree src) in
  st = accept_all (accepted st) init_state /\ Forall single_big_polygon (accepted st).
Proof.
  destruct (reaches_overlay shade gdf tree src) as (l & Hl & HP).
  simpl. rewrite Hl at 2 3. rewrite accepted_accept_all. simpl. by split.
Qed.


(** C7, as the code has it. The loop keeps one counter, which counts the
    accepted fragments; a candidate whose intersection is empty or has
    area below 1, and a part of area below 1, is skipped without ending
    the loop and leaves the counter, the buffer and the file as they
    were. *)
Theorem count_counts_accepted shade gdf tree src :
  count (state_of (overlay_loop shade gdf tree src))
    = Z.of_nat (length (accepted (state_of (overlay_loop shade gdf tree src))))
  /\ (forall geoms pee a g c idx st h,
        geoms !! idx = Some h ->
        is_empty (intersection pee h) = true \/ (area (intersection pee h) < 1)%Q ->
        candidate_body gdf geoms pee a g c idx st = Done st)
  /\ (forall row a g c p st,
        (area (Polygon p) < 1)%Q -> poly_body row a g c p st = Done st).
Proof.
  split; [|split].
  - destruct (overlay_state shade gdf tree src) as [Hst _]. simpl in Hst.
    rewrite Hst at 1. rewrite count_accept_all. simpl. lia.
  - intros geoms pee a g c idx st h Hh Hskip. unfold candidate_body. rewrite Hh.
    destruct Hskip as [->|Hlt]; [reflexivity|].
    apply Qlt_bool_true in Hlt. rewrite Hlt, orb_true_r. reflexivity.
  - intros row a g c p st Hlt. unfold poly_body.
    apply Qlt_bool_true in Hlt. by rewrite Hlt.
Qed.

End BufferAndCounter.

(** C7 as stated fails: a stand and a cut that overlap on a quarter of a
    unit give no fragment, and the loop ends in its initial state, with
    every counter at zero; and a stand whose geometry cannot be decoded
    ends the loop with an exception. *)
Lemma discard_not_counted_counterexample :
  Overlay.overlay_loop Samples.shade_table (Some Samples.sliver_cuts)
    (Some (Overlay.interv_geometry <$> Samples.sliver_cuts))
    [Samples.stand (Polygon (Boxes.square 0 0 2))]
  = Done Overlay.init_state
  /\ (area (intersection (Polygon (Boxes.square 0 0 2))
                         (Polygon (Boxes.square (3 # 2) (-(1 # 2)) 1))) == 1 # 4)%Q
  /\ Overlay.overlay_loop Samples.shade_table (Some Samples.cuts)
       (Some (Overlay.interv_geometry <$> Samples.cuts)) [Samples.null_stand]
     = Raised GeometryError Overlay.init_state.
Proof. repeat split. Qed.

Lemma count_counts_accepted_witness :
  Overlay.candidate_body (Some Samples.sliver_cuts)
    (Overlay.interv_geometry <$> Samples.sliver_cuts) (Polygon (Boxes.square 0 0 2))
    (Some "Even") (Some "Tol") None 0%nat Overlay.init_state
  = Done Overlay.init_state.
Proof.
  apply (proj1 (proj2 (count_counts_accepted Samples.shade_table (Some Samples.sliver_cuts)
                         (Some (Overlay.interv_geometry <$> Samples.sliver_cuts))
                         Samples.stands))
           _ _ _ _ _ 0%nat _ (Polygon (Boxes.square (3 # 2) (-(1 # 2)) 1))).
  - reflexivity.
  - right. reflexivity.
Defined.

(** ** Completeness of the overlay *)

Section Completeness.
Context {E : GeometryEngine}.
Import Overlay Reference.

Lemma bind_ext_in {A B} (f g : A -> list B) (l : list A) :
  (forall x, x ∈ l -> f x = g x) -> l ≫= f = l ≫= g.
Proof.
  induction l as [|x l IH]; intros H; [reflexivity|].
  rewrite !bind_cons, (H x) by constructor.
  rewrite IH; [reflexivity|]. intros y Hy. apply H. by constructor.
Qed.

Lemma bind_filter_off {A B} (P : A -> Prop) `{!forall x, Decision (P x)}
    (f : A -> list B) (l : list A) :
  (forall x, x ∈ l -> ~ P x -> f x = []) -> filter P l ≫= f = l ≫= f.
Proof.
  induction l as [|x l IH]; intros Hoff; [reflexivity|].
  assert (Hl : forall y, y ∈ l -> ~ P y -> f y = [])
    by (intros y Hy; apply Hoff; by constructor).
  destruct (decide (P x)) as [HP|HP].
  - rewrite filter_cons_True by done. rewrite !bind_cons, IH by done. reflexivity.
  - rewrite filter_cons_False by done. rewrite bind_cons, IH by done.
    rewrite (Hoff x) by (done || constructor). reflexivity.
Qed.

Lemma bind_by_position {A B} (f : A -> list B) (rows : list A) :
  rows ≫= f
  = seq 0 (length rows) ≫= (fun i => match rows !! i with Some r => f r | None => [] end).
Proof.
  induction rows as [|r rows IH] using rev_ind; [reflexivity|].
  rewrite length_app, Nat.add_1_r, seq_S, !bind_app, IH. simpl.
  f_equal.
  - apply bind_ext_in. intros i Hi. apply elem_of_seq in Hi.
    rewrite lookup_app_l by lia. reflexivity.
  - simpl. rewrite lookup_app_r by lia.
    rewrite Nat.sub_diag. reflexivity.
Qed.

Lemma bind_positions_perm {B} (f : nat -> list B) (q : list nat) (n : nat) :
  NoDup q ->
  (forall i, i ∈ q -> (i < n)%nat) ->
  (forall i, (i < n)%nat -> i ∉ q -> f i = []) ->
  q ≫= f ≡ₚ seq 0 n ≫= f.
Proof.
  intros Hnd Hrange Hoff.
  rewrite <- (bind_filter_off (fun i => i ∈ q) f (seq 0 n)).
  - apply bind_Permutation, NoDup_Permutation; [done|apply NoDup_filter, NoDup_seq|].
    intros i. rewrite list_elem_of_filter, elem_of_seq. split.
    + intros Hi. split; [done|]. specialize (Hrange i Hi). lia.
    + by intros [Hi _].
  - intros i Hi Hq. apply elem_of_seq in Hi. apply Hoff; [lia|done].
Qed.

Lemma for_each_accept_all {A} (body : A -> LoopState -> outcome LoopState)
    (F : A -> list Fragment) (xs : list A) (st : LoopState) :
  (forall x s, x ∈ xs -> body x s = Done (accept_all (F x) s)) ->
  for_each body xs st = Done (accept_all (xs ≫= F) st).
Proof.
  revert st. induction xs as [|x xs IH]; intros st H; [reflexivity|].
  rewrite bind_cons, accept_all_app. cbn [for_each].
  rewrite (H x st) by constructor. cbn [and_then].
  apply IH. intros y s Hy. apply H. by constructor.
Qed.

Lemma skip_test (g : Geom Poly Other) :
  is_empty g || Qlt_bool (area g) 1 = false <-> non_degenerate g.
Proof.
  unfold non_degenerate. rewrite orb_false_iff, Qlt_bool_false. reflexivity.
Qed.

Lemma extract_polygons_polygonal (g : Geom Poly Other) :
  extract_polygons g = polygonal_parts g.
Proof. by destruct g. Qed.

(** One candidate in range: the loop accepts the fragments of the pair. *)
Lemma candidate_in_range shade rows pee f idx row st :
  rows !! idx = Some row ->
  candidate_body (Some rows) (interv_geometry <$> rows) pee
    (reclassify_cl_age (feat_CL_AGE f))
    (classify_shade_tolerance shade (feat_GR_ESS f)) (feat_CO_TER f) idx st
  = Done (accept_all (pair_fragments shade pee f row) st).
Proof.
  intros Hrow. unfold candidate_body, pair_fragments, pair_fragments_by.
  rewrite list_lookup_fmap, Hrow. simpl.
  destruct (decide (non_degenerate (intersection pee (interv_geometry row)))) as [Hnd|Hnd].
  - apply skip_test in Hnd. rewrite Hnd.
    rewrite poly_loop, extract_polygons_polygonal. reflexivity.
  - destruct (_ || _) eqn:Hb; [reflexivity|].
    apply skip_test in Hb. contradiction.
Qed.

Lemma feature_in_range shade rows f pee st :
  shape (feat_geometry f) = Some pee ->
  (forall idx, idx ∈ tree_query (interv_geometry <$> rows) pee -> (idx < length rows)%nat) ->
  feature_body shade (Some rows) (Some (interv_geometry <$> rows)) f st
  = Done (accept_all (tree_query (interv_geometry <$> rows) pee
                        ≫= fragments_at shade rows pee f) st).
Proof.
  intros Hshape Hrange. unfold feature_body. rewrite Hshape.
  destruct (tree_query (interv_geometry <$> rows) pee) as [|i q] eqn:Hq;
    [reflexivity|].
  cbn [length Nat.eqb]. apply for_each_accept_all.
  intros idx s Hidx. unfold fragments_at.
  destruct (rows !! idx) as [row|] eqn:Hrow.
  - by apply candidate_in_range.
  - apply lookup_ge_None in Hrow. specialize (Hrange idx Hidx). lia.
Qed.

Lemma pair_fragments_degenerate shade pee f row :
  ~ non_degenerate (intersection pee (interv_geometry row)) ->
  pair_fragments shade pee f row = [].
Proof.
  intros H. unfold pair_fragments, pair_fragments_by. by rewrite decide_False.
Qed.


End Completeness.

Lemma sample_index_answers (f : Overlay.Feature) :
  f ∈ Samples.stands ->
  exists pee, shape (Overlay.feat_geometry f) = Some pee
              /\ Reference.index_answers Samples.cuts pee.
Proof.
  intros Hf. unfold Samples.stands in Hf.
  apply elem_of_cons in Hf as [->|Hf]; [|apply list_elem_of_singleton in Hf as ->];
    (eexists; split; [reflexivity|]); unfold Reference.index_answers; cbv zeta;
    (split; [apply (bool_decide_unpack _); vm_compute; exact I|]);
    (split; [apply (Forall_forall (fun i => (i < 3)%nat));
             apply (bool_decide_unpack _); vm_compute; exact I|]);
    intros [|[|[|idx]]] row Hrow Hnd; try discriminate;
    try (apply (bool_decide_unpack _); vm_compute; exact I);
    exfalso; injection Hrow as <-; destruct Hnd as [Hne Harea];
    first [ vm_compute in Hne; discriminate | vm_compute in Harea; by apply Harea ].
Qed.



(** ** Runs of the script *)

Section ScriptFacts.
Context {E : GeometryEngine} {P : Pandas}.
Import Overlay Aggregator Script Reference.

(** A run that finds any file at [clipped_gpkg] stops at line 43. *)
Lemma run_with_file inp file :
  file_exists file = true ->
  run inp file = Raised (NameError "interv_fores_gdf") (start file).
Proof.
  intros Hex. unfold run, load_cuts. cbn [clipped_gpkg start].
  rewrite Hex. reflexivity.
Qed.

(** A run that finds no file goes through the overlay. *)
Lemma run_without_file inp env :
  run inp Absent = Done env ->
  exists st,
    overlay_loop (shade_tolerance inp) (Some (forest_cut_gdb inp))
      (Some (interv_geometry <$> forest_cut_gdb inp)) (forest_inv_gdb inp) = Done st
    /\ clipped_gpkg env
       = Stored (Final (add_columns (cut_categories inp) <$> accepted st)).
Proof.
  unfold run, load_cuts, build_index, load_checkpoint, overlay_phase, aggregate.
  cbn -[overlay_loop Matrices.matrix_pct Matrices.matrix_prob].
  destruct (overlay_loop _ _ _ _) as [st|e st] eqn:Ho;
    cbn -[Matrices.matrix_pct Matrices.matrix_prob];
    [|intros Henv; discriminate Henv].
  rewrite final_flush_accepted.
  destruct (accepted st) as [|fo l] eqn:Hacc;
    cbn -[Matrices.matrix_pct Matrices.matrix_prob];
    [intros Henv; discriminate Henv|].
  intros Henv. injection Henv as <-. exists st. split; [reflexivity|].
  by rewrite Hacc.
Qed.

Lemma run_done_only_without_file inp file env :
  run inp file = Done env -> file = Absent.
Proof.
  destruct file; [reflexivity| |]; rewrite run_with_file by reflexivity; discriminate.
Qed.

(** C2: a run that starts with a stored dataset raises NameError at line
    43, before the checkpoint is read; the file and all the variables are
    as at the start, and no matrix is written. *)
Theorem second_run_raises inp d :
  run inp (Stored d) = Raised (NameError "interv_fores_gdf") (start (Stored d)).
Proof. by apply run_with_file. Qed.

(** The checkpoint branch entered with [interv_fores_gdf] bound and a
    corrupt file deletes the file and the variable, and the overlay that
    follows cannot end normally: line 160 or line 202 raises. *)
Lemma recovery_never_completes inp env env' :
  clipped_gpkg env = Corrupt -> run_from_checkpoint inp env <> Done env'.
Proof.
  intros Hfile. unfold run_from_checkpoint, load_checkpoint. rewrite Hfile.
  cbn [file_exists].
  destruct (interv_fores_gdf env) as [gdf|]; [cbn|cbn; discriminate].
  rewrite Hfile. unfold overlay_phase. cbn -[overlay_loop].
  destruct (overlay_loop _ _ _ _); cbn; discriminate.
Qed.

(** C5: a run that starts with a corrupt file raises NameError at line
    43; the corrupt file is still there and the overlay has not run.
    Entered on its own, the recovery branch does not complete either. *)
Theorem corrupt_checkpoint_raises inp :
  run inp Corrupt = Raised (NameError "interv_fores_gdf") (start Corrupt)
  /\ clipped_gpkg (state_of (run inp Corrupt)) = Corrupt
  /\ (forall env env', clipped_gpkg env = Corrupt ->
                       run_from_checkpoint inp env <> Done env').
Proof.
  split; [by apply run_with_file|]. split.
  - by rewrite run_with_file.
  - intros env env'. apply recovery_never_completes.
Qed.

(** X7. Lines 78-326 entered with [interv_fores_gdf] bound (a session in
    which the name is already bound: a run of the whole script stops at
    line 43) and a dataset saved at line 239. When the dataset has rows,
    the overlay is skipped and the same dataset is saved again: Steps 4
    to 6 recompute AREACUT and CUTTYPE from the stored geometry and codes.
    When it has no row, line 217 raises TypeError and the file is left as
    it is. *)
Lemma checkpoint_branch_idempotent inp env gdf records :
  interv_fores_gdf env = Some gdf ->
  clipped_gpkg env = Stored (Final (add_columns (cut_categories inp) <$> records)) ->
  (records <> [] ->
   exists env', run_from_checkpoint inp env = Done env'
                /\ clipped_gpkg env' = clipped_gpkg env)
  /\ (records = [] ->
      exists env', run_from_checkpoint inp env = Raised TypeError env'
                   /\ clipped_gpkg env' = clipped_gpkg env
                   /\ forest_cut_matrix_csv env' = forest_cut_matrix_csv env
                   /\ forest_cut_matrix_probabilities_csv env'
                      = forest_cut_matrix_probabilities_csv env).
Proof.
  intros Hgdf Hfile. unfold run_from_checkpoint, load_checkpoint.
  rewrite Hfile, Hgdf. cbn -[Matrices.matrix_pct Matrices.matrix_prob].
  rewrite Hfile. cbn -[Matrices.matrix_pct Matrices.matrix_prob].
  destruct records as [|fo records]; split; try done; intros _.
  - eexists. split; [reflexivity|]. by cbn.
  - cbn -[Matrices.matrix_pct Matrices.matrix_prob].
    eexists. split; [reflexivity|]. cbn.
    rewrite <- !list_fmap_compose. do 2 f_equal.
Qed.

(** C4. Every record in the file when the overlay closes it is a single
    polygon of area at least 1; the parts of a multi-part intersection are
    filtered one by one, the loop over the parts accepting exactly those
    of area at least 1; and after a complete run every row of the saved
    dataset is a single polygon whose AREACUT is at least 1. *)
Theorem persisted_fragments_min_area inp shade gdf tree src :
  (forall fo, fo ∈ records_at_close (overlay_loop shade gdf tree src) ->
              single_big_polygon fo)
  /\ (forall row a g c parts st,
        for_each (poly_body row a g c) (extract_polygons (MultiPolygon parts)) st
        = Done (accept_all ((fun p => feature_out p row a g c)
                              <$> filter big_enough parts) st))
  /\ (forall file env,
        run inp file = Done env ->
        exists rows, clipped_gpkg env = Stored (Final rows)
                     /\ forall row, row ∈ rows ->
                          single_big_polygon (frag row) /\ (1 <= AREACUT row)%Q).
Proof.
  split; [|split].
  - intros fo Hfo. apply records_at_close_accepted in Hfo.
    destruct (overlay_state shade gdf tree src) as [_ HP].
    rewrite Forall_forall in HP. by apply HP.
  - intros. apply poly_loop.
  - intros file env Hrun.
    pose proof (run_done_only_without_file _ _ _ Hrun) as ->.
    apply run_without_file in Hrun as (st & Ho & Hfile).
    eexists. split; [exact Hfile|]. intros row Hrow.
    apply list_elem_of_fmap in Hrow as (fo & -> & Hfo).
    destruct (overlay_state (shade_tolerance inp) (Some (forest_cut_gdb inp))
                (Some (interv_geometry <$> forest_cut_gdb inp)) (forest_inv_gdb inp))
      as [_ HP].
    rewrite Ho in HP. simpl in HP. rewrite Forall_forall in HP.
    specialize (HP fo Hfo). split; [exact HP|].
    destruct HP as (p & Hp & Harea). cbn. by rewrite Hp.
Qed.

End ScriptFacts.

(** The sample layers, run from scratch: one stored fragment, of the first
    stand and the first cut; the sliver of the same pair and the quarter
    unit of the second cut are dropped, the third cut is never a candidate. *)
Example first_run_of_samples :
  exists env rows,
    Script.run Samples.inputs Script.Absent = Done env
    /\ Script.clipped_gpkg env = Script.Stored (Script.Final rows)
    /\ Script.to_obs <$> rows
       = [ {| Aggregator.obs_cuttype := Some "Commercial thinning";
              Aggregator.obs_forest_type := "Even/Tol";
              Aggregator.obs_area := 1%Q |} ].
Proof.
  eexists. eexists. split; [reflexivity|]. split; [reflexivity|].
  vm_compute. reflexivity.
Qed.

(** The same run started again on the file that the first one saved. *)
Example second_run_of_samples :
  forall env,
    Script.run Samples.inputs Script.Absent = Done env ->
    Script.run Samples.inputs (Script.clipped_gpkg env)
    = Raised (NameError "interv_fores_gdf") (Script.start (Script.clipped_gpkg env)).
Proof.
  intros env Hrun. apply run_without_file in Hrun as (st & _ & ->).
  by apply run_with_file.
Qed.

Lemma persisted_fragments_min_area_witness :
  Reference.single_big_polygon Samples.first_fragment.
Proof.
  apply (proj1 (persisted_fragments_min_area Samples.inputs Samples.shade_table
                  (Some Samples.cuts) (Some (Overlay.interv_geometry <$> Samples.cuts))
                  Samples.stands)).
  vm_compute. constructor.
Defined.


(** ** Sums of rationals *)

Section Sums.
Import Aggregator Reference.
Open Scope Q_scope.

Lemma Qsum_app l1 l2 : Qsum (l1 ++ l2) == Qsum l1 + Qsum l2.
Proof.
  induction l1 as [|x l1 IH]; simpl; [lra|]. rewrite IH. lra.
Qed.

Lemma Qsum_cons x l : Qsum (x :: l) = x + Qsum l.
Proof. reflexivity. Qed.

Lemma Qsum_over_cons {A} (f : A -> Q) x l :
  Qsum_over f (x :: l) = f x + Qsum_over f l.
Proof. reflexivity. Qed.

Lemma Qsum_over_ext {A} (f g : A -> Q) l :
  (forall x, x ∈ l -> f x == g x) -> Qsum_over f l == Qsum_over g l.
Proof.
  induction l as [|x l IH]; intros H; [reflexivity|].
  rewrite !Qsum_over_cons, (H x) by constructor.
  rewrite IH; [reflexivity|]. intros y Hy. apply H. by constructor.
Qed.

Lemma Qsum_over_plus {A} (f g : A -> Q) l :
  Qsum_over (fun x => f x + g x) l == Qsum_over f l + Qsum_over g l.
Proof.
  induction l as [|x l IH]; [unfold Qsum_over; simpl; lra|].
  rewrite !Qsum_over_cons, IH. lra.
Qed.

Lemma Qsum_over_scale {A} (k : Q) (f : A -> Q) l :
  Qsum_over (fun x => f x * k) l == Qsum_over f l * k.
Proof.
  induction l as [|x l IH]; [unfold Qsum_over; simpl; lra|].
  rewrite !Qsum_over_cons, IH. lra.
Qed.

Lemma Qsum_over_zero {A} (f : A -> Q) l :
  (forall x, x ∈ l -> f x == 0) -> Qsum_over f l == 0.
Proof.
  induction l as [|x l IH]; intros H; [reflexivity|].
  rewrite Qsum_over_cons, (H x) by constructor.
  rewrite IH; [lra|]. intros y Hy. apply H. by constructor.
Qed.

Lemma Qsum_over_nonneg {A} (f : A -> Q) l :
  (forall x, x ∈ l -> 0 <= f x) -> 0 <= Qsum_over f l.
Proof.
  induction l as [|x l IH]; intros H; [unfold Qsum_over; simpl; lra|].
  rewrite Qsum_over_cons.
  assert (0 <= f x) by (apply H; constructor).
  assert (0 <= Qsum_over f l) by (apply IH; intros y Hy; apply H; by constructor).
  lra.
Qed.

(** A sum of non-negative terms that is zero has only zero terms. *)
Lemma Qsum_over_zero_inv {A} (f : A -> Q) l :
  (forall x, x ∈ l -> 0 <= f x) -> Qsum_over f l == 0 ->
  forall x, x ∈ l -> f x == 0.
Proof.
  induction l as [|y l IH]; intros Hpos Hsum x Hx; [by apply elem_of_nil in Hx|].
  rewrite Qsum_over_cons in Hsum.
  assert (0 <= f y) by (apply Hpos; constructor).
  assert (0 <= Qsum_over f l)
    by (apply Qsum_over_nonneg; intros z Hz; apply Hpos; by constructor).
  apply elem_of_cons in Hx as [->|Hx]; [lra|].
  apply IH; [|lra|done]. intros z Hz. apply Hpos. by constructor.
Qed.

(** The sum of an indicator over a list without duplicates. *)
Lemma Qsum_over_indicator {A} `{EqDecision A} (x0 : A) (a : Q) l :
  NoDup l ->
  Qsum_over (fun x => if decide (x = x0) then a else 0) l
  == if decide (x0 ∈ l) then a else 0.
Proof.
  induction 1 as [|x l Hx Hnd IH]; [reflexivity|].
  rewrite Qsum_over_cons, IH.
  destruct (decide (x = x0)) as [->|Hne].
  - rewrite decide_False by done. rewrite decide_True by constructor. lra.
  - destruct (decide (x0 ∈ l)) as [Hin|Hin].
    + rewrite decide_True by (by constructor). lra.
    + rewrite decide_False; [lra|]. intros H. apply elem_of_cons in H as [->|H]; done.
Qed.

Lemma Qsum_over_filter_le {A} (f : A -> Q) (P : A -> Prop)
    `{!forall x, Decision (P x)} (l : list A) :
  (forall x, x ∈ l -> 0 <= f x) -> Qsum_over f (filter P l) <= Qsum_over f l.
Proof.
  induction l as [|x l IH]; intros Hpos; [apply Qle_refl|].
  assert (0 <= f x) by (apply Hpos; constructor).
  assert (Qsum_over f (filter P l) <= Qsum_over f l)
    by (apply IH; intros y Hy; apply Hpos; by constructor).
  destruct (decide (P x)).
  - rewrite filter_cons_True by done. rewrite !Qsum_over_cons. lra.
  - rewrite filter_cons_False by done. rewrite Qsum_over_cons. lra.
Qed.

Lemma Qsum_over_elem_le {A} (f : A -> Q) (l : list A) x :
  (forall y, y ∈ l -> 0 <= f y) -> x ∈ l -> f x <= Qsum_over f l.
Proof.
  induction l as [|y l IH]; intros Hpos Hx; [by apply elem_of_nil in Hx|].
  rewrite Qsum_over_cons.
  assert (0 <= f y) by (apply Hpos; constructor).
  assert (0 <= Qsum_over f l)
    by (apply Qsum_over_nonneg; intros z Hz; apply Hpos; by constructor).
  apply elem_of_cons in Hx as [->|Hx]; [lra|].
  assert (f x <= Qsum_over f l); [|lra].
  apply IH; [|done]. intros z Hz. apply Hpos. by constructor.
Qed.

End Sums.

(** ** The area matrix and the percentage matrix *)

Section MatrixFacts.
Import Aggregator Reference.
Open Scope Q_scope.

Lemma sorted_labels_elem l x : x ∈ sorted_labels l <-> x ∈ l.
Proof.
  unfold sorted_labels. rewrite merge_sort_Permutation. apply elem_of_remove_dups.
Qed.

Lemma sorted_labels_NoDup l : NoDup (sorted_labels l).
Proof.
  unfold sorted_labels. rewrite merge_sort_Permutation. apply NoDup_remove_dups.
Qed.

Lemma Qeq_bool_false x y : ~ x == y -> Qeq_bool x y = false.
Proof.
  intros H. destruct (Qeq_bool x y) eqn:Hb; [|reflexivity].
  apply Qeq_bool_iff in Hb. contradiction.
Qed.

Lemma Qeq_bool_true x y : x == y -> Qeq_bool x y = true.
Proof. apply Qeq_bool_iff. Qed.

Lemma group_sum_cons o df r c :
  group_sum (o :: df) r c
  == (if decide (in_group r c o) then obs_area o else 0) + group_sum df r c.
Proof.
  unfold group_sum. destruct (decide (in_group r c o)) as [H|H].
  - rewrite filter_cons_True by done. rewrite fmap_cons, Qsum_cons. lra.
  - rewrite filter_cons_False by done. lra.
Qed.

Lemma sum_cells_double (m : Frame) :
  sum_cells m
  == Qsum_over (fun r => Qsum_over (fun c => fl_val (cell m r c)) (columns m)) (index m).
Proof.
  unfold sum_cells, cells. induction (index m) as [|r rs IH]; [reflexivity|].
  rewrite bind_cons, fmap_app, Qsum_app, IH, Qsum_over_cons.
  unfold Qsum_over at 3. rewrite <- list_fmap_compose. reflexivity.
Qed.

Lemma indicator_double (o : Obs) (I C : list string) :
  NoDup I -> NoDup C ->
  (forall r, obs_cuttype o = Some r -> r ∈ I /\ obs_forest_type o ∈ C) ->
  Qsum_over (fun r => Qsum_over
               (fun c => if decide (in_group r c o) then obs_area o else 0) C) I
  == if decide (has_cuttype o) then obs_area o else 0.
Proof.
  intros HI HC Hin. destruct (decide (has_cuttype o)) as [Hhas|Hno].
  - assert (exists r0, obs_cuttype o = Some r0) as [r0 Hcut].
    { unfold has_cuttype in Hhas. destruct (obs_cuttype o) as [r0|]; [by exists r0|done]. }
    destruct (Hin r0 Hcut) as [Hr0 Hc0].
    rewrite (Qsum_over_ext _ (fun r => if decide (r = r0) then obs_area o else 0)).
    + rewrite Qsum_over_indicator by done. by rewrite decide_True.
    + intros r _. destruct (decide (r = r0)) as [->|Hne].
      * rewrite (Qsum_over_ext _
                   (fun c => if decide (c = obs_forest_type o) then obs_area o else 0)).
        -- rewrite Qsum_over_indicator by done. by rewrite decide_True.
        -- intros c _. destruct (decide (c = obs_forest_type o)) as [->|Hc].
           ++ by rewrite decide_True.
           ++ rewrite decide_False; [reflexivity|]. intros [_ H]. by apply Hc.
      * apply Qsum_over_zero. intros c _.
        rewrite decide_False; [reflexivity|]. intros [H _]. apply Hne. congruence.
  - apply Qsum_over_zero. intros r _. apply Qsum_over_zero. intros c _.
    rewrite decide_False; [reflexivity|]. intros [H _]. apply Hno.
    unfold has_cuttype. congruence.
Qed.

Lemma group_sums_total (I C : list string) (df : list Obs) :
  NoDup I -> NoDup C ->
  (forall o r, o ∈ df -> obs_cuttype o = Some r -> r ∈ I /\ obs_forest_type o ∈ C) ->
  Qsum_over (fun r => Qsum_over (fun c => group_sum df r c) C) I
  == total_area (filter has_cuttype df).
Proof.
  intros HI HC. induction df as [|o df IH]; intros Hin.
  - unfold total_area. simpl. apply Qsum_over_zero. intros r _.
    apply Qsum_over_zero. intros c _. reflexivity.
  - rewrite (Qsum_over_ext _
       (fun r => Qsum_over (fun c => if decide (in_group r c o) then obs_area o else 0) C
                 + Qsum_over (fun c => group_sum df r c) C)).
    + rewrite Qsum_over_plus, indicator_double, IH; try done.
      * unfold total_area. destruct (decide (has_cuttype o)) as [H|H].
        -- rewrite filter_cons_True by done. rewrite fmap_cons, Qsum_cons. lra.
        -- rewrite filter_cons_False by done. lra.
      * intros o' r Ho'. apply Hin. by constructor.
      * intros r. apply Hin. constructor.
    + intros r _. rewrite <- Qsum_over_plus. apply Qsum_over_ext.
      intros c _. apply group_sum_cons.
Qed.

(** The cells of the area matrix add up to the area of the rows that
    have a cut type. *)
Lemma sum_cells_matrix df :
  sum_cells (matrix df) == total_area (filter has_cuttype df).
Proof.
  rewrite sum_cells_double. simpl.
  apply group_sums_total; try apply sorted_labels_NoDup.
  intros o r Ho Hr.
  assert (Hf : o ∈ filter has_cuttype df).
  { apply list_elem_of_filter. split; [|done]. unfold has_cuttype. congruence. }
  split; apply sorted_labels_elem.
  - apply list_elem_of_omap. by exists o.
  - apply list_elem_of_fmap. by exists o.
Qed.

Lemma total_area_split df :
  total_area df == total_area (filter has_cuttype df) + null_area df.
Proof.
  unfold total_area, null_area.
  induction df as [|o df IH]; [unfold Qsum; simpl; lra|].
  rewrite fmap_cons, Qsum_cons.
  destruct (decide (has_cuttype o)) as [H|H].
  - rewrite (filter_cons_True has_cuttype) by done.
    rewrite (filter_cons_False (fun o => ~ has_cuttype o)) by (intros H'; by apply H').
    rewrite fmap_cons, Qsum_cons. lra.
  - rewrite (filter_cons_False has_cuttype) by done.
    rewrite (filter_cons_True (fun o => ~ has_cuttype o)) by done.
    rewrite fmap_cons, Qsum_cons. lra.
Qed.

Lemma pct_exact_cell df r c :
  ~ total_area df == 0 ->
  cell (matrix_pct_exact df) r c = Fin (group_sum df r c / total_area df * 100).
Proof.
  intros HT. simpl. unfold fl_div. by rewrite (Qeq_bool_false _ _ HT).
Qed.

Lemma sum_cells_pct_exact df :
  ~ total_area df == 0 ->
  sum_cells (matrix_pct_exact df)
  == total_area (filter has_cuttype df) / total_area df * 100.
Proof.
  intros HT. rewrite <- sum_cells_matrix, !sum_cells_double.
  change (index (matrix_pct_exact df)) with (index (matrix df)).
  change (columns (matrix_pct_exact df)) with (columns (matrix df)).
  rewrite (Qsum_over_ext _
     (fun r => Qsum_over (fun c => fl_val (cell (matrix df) r c)) (columns (matrix df))
               * (100 / total_area df))).
  - rewrite Qsum_over_scale. field. exact HT.
  - intros r _.
    rewrite (Qsum_over_ext _
       (fun c => fl_val (cell (matrix df) r c) * (100 / total_area df))).
    + apply Qsum_over_scale.
    + intros c _. rewrite pct_exact_cell by done. simpl. field. exact HT.
Qed.

End MatrixFacts.

Section NullCutType.
Context {E : GeometryEngine}.
Import Overlay Aggregator Script Reference.
Open Scope Q_scope.

Lemma filter_has_cuttype_idemp (df : list Obs) :
  filter has_cuttype (filter has_cuttype df) = filter has_cuttype df.
Proof.
  induction df as [|o df IH]; [reflexivity|].
  destruct (decide (has_cuttype o)) as [H|H].
  - rewrite (filter_cons_True _ o df) by done.
    rewrite (filter_cons_True _ o (filter has_cuttype df)) by done. by rewrite IH.
  - by rewrite (filter_cons_False _ o df) by done.
Qed.

Lemma filter_in_group_has_cuttype r c (df : list Obs) :
  filter (in_group r c) (filter has_cuttype df) = filter (in_group r c) df.
Proof.
  induction df as [|o df IH]; [reflexivity|].
  destruct (decide (has_cuttype o)) as [H|H].
  - rewrite (filter_cons_True has_cuttype) by done.
    destruct (decide (in_group r c o)) as [G|G].
    + rewrite !(filter_cons_True (in_group r c)) by done. by rewrite IH.
    + by rewrite !(filter_cons_False (in_group r c)) by done.
  - rewrite (filter_cons_False has_cuttype) by done.
    rewrite (filter_cons_False (in_group r c)); [done|].
    intros [G _]. apply H. unfold has_cuttype. congruence.
Qed.

Lemma Qsum_over_pos {A} (f : A -> Q) (l : list A) :
  (forall x, x ∈ l -> 0 <= f x) -> (exists x, x ∈ l /\ 0 < f x) ->
  0 < Qsum_over f l.
Proof.
  induction l as [|y l IH]; intros Hpos (x & Hx & Hfx); [by apply elem_of_nil in Hx|].
  rewrite Qsum_over_cons.
  assert (0 <= f y) by (apply Hpos; constructor).
  assert (0 <= Qsum_over f l)
    by (apply Qsum_over_nonneg; intros z Hz; apply Hpos; by constructor).
  apply elem_of_cons in Hx as [->|Hx]; [lra|].
  assert (0 < Qsum_over f l); [|lra].
  apply IH; [|by exists x]. intros z Hz. apply Hpos. by constructor.
Qed.


End NullCutType.



(** ** Rounding *)

Section Rounding.
Import Aggregator Reference.
Open Scope Q_scope.

Lemma rint_comp x y : x == y -> rint x = rint y.
Proof.
  intros H. unfold rint. rewrite (Qfloor_comp _ _ H).
  assert (Hc : (x - inject_Z (Qfloor y) ?= 1 # 2) = (y - inject_Z (Qfloor y) ?= 1 # 2))
    by (apply Qcompare_comp; [by rewrite H|reflexivity]).
  by rewrite Hc.
Qed.

Lemma round_dec_comp d x y : x == y -> round_dec d x = round_dec d y.
Proof.
  intros H. unfold round_dec.
  rewrite (rint_comp (x * inject_Z (10 ^ Z.of_nat d)) (y * inject_Z (10 ^ Z.of_nat d)));
    [reflexivity|by rewrite H].
Qed.

(** The nearest integer is at distance at most one half. *)
Lemma rint_close x : x - (1 # 2) <= inject_Z (rint x) <= x + (1 # 2).
Proof.
  unfold rint. pose proof (Qfloor_le x) as Hlo. pose proof (Qlt_floor x) as Hhi.
  rewrite inject_Z_plus in Hhi. change (inject_Z 1) with 1 in Hhi.
  destruct (Qcompare_spec (x - inject_Z (Qfloor x)) (1 # 2)) as [Heq|Hlt|Hgt].
  - destruct (Z.even (Qfloor x)); rewrite ?inject_Z_plus;
      change (inject_Z 1) with 1; lra.
  - lra.
  - rewrite inject_Z_plus. change (inject_Z 1) with 1. lra.
Qed.

Lemma rint_nonneg x : 0 <= x -> (0 <= rint x)%Z.
Proof.
  intros Hx. assert (Hf : (0 <= Qfloor x)%Z).
  { change 0%Z with (Qfloor 0). by apply Qfloor_resp_le. }
  unfold rint. destruct (_ ?= _); [destruct (Z.even _)| |]; lia.
Qed.

Lemma rint_le_integer x (n : Z) : x <= inject_Z n -> (rint x <= n)%Z.
Proof.
  intros Hx. destruct (rint_close x) as [_ Hhi].
  destruct (Z_le_gt_dec (rint x) n) as [Hle|Hgt]; [exact Hle|exfalso].
  assert (Hq : inject_Z (n + 1) <= inject_Z (rint x)) by (rewrite <- Zle_Qle; lia).
  rewrite inject_Z_plus in Hq. change (inject_Z 1) with 1 in Hq. lra.
Qed.

Lemma round_dec_4 q : round_dec 4 q == inject_Z (rint (q * 10000)) * (1 # 10000).
Proof. unfold round_dec. reflexivity. Qed.

Lemma round_dec_nonneg d q : 0 <= q -> 0 <= round_dec d q.
Proof.
  intros Hq. unfold round_dec.
  assert (HK : 0 < inject_Z (10 ^ Z.of_nat d)).
  { change 0 with (inject_Z 0). rewrite <- Zlt_Qlt. apply Z.pow_pos_nonneg; lia. }
  apply Qle_shift_div_l; [exact HK|].
  apply Qle_trans with 0; [apply Qle_lteq; right; ring|].
  change 0 with (inject_Z 0). rewrite <- Zle_Qle. apply rint_nonneg.
  apply Qmult_le_0_compat; lra.
Qed.

Lemma round_dec_zero d q : q == 0 -> round_dec d q == 0.
Proof.
  intros H. rewrite (round_dec_comp d q 0 H). unfold round_dec.
  rewrite (rint_comp (0 * inject_Z (10 ^ Z.of_nat d)) 0) by ring.
  change (rint 0) with 0%Z. unfold Qdiv. ring.
Qed.

(** Terms that are each within [eps] of others have sums within
    [length * eps]. *)
Lemma Qsum_over_close {A} (f g : A -> Q) (eps : Q) (l : list A) :
  (forall x, x ∈ l -> g x - eps <= f x <= g x + eps) ->
  Qsum_over g l - inject_Z (Z.of_nat (length l)) * eps
    <= Qsum_over f l
    <= Qsum_over g l + inject_Z (Z.of_nat (length l)) * eps.
Proof.
  induction l as [|x l IH]; intros H.
  - change (Qsum_over g []) with 0. change (Qsum_over f []) with 0.
    change (inject_Z (Z.of_nat (length (@nil A)))) with 0. lra.
  - rewrite !Qsum_over_cons.
    assert (Hx : g x - eps <= f x <= g x + eps) by (apply H; constructor).
    assert (Hl : Qsum_over g l - inject_Z (Z.of_nat (length l)) * eps
                 <= Qsum_over f l
                 <= Qsum_over g l + inject_Z (Z.of_nat (length l)) * eps)
      by (apply IH; intros y Hy; apply H; by constructor).
    cbn [length]. rewrite Nat2Z.inj_succ, <- Z.add_1_r, inject_Z_plus.
    change (inject_Z 1) with 1. lra.
Qed.

End Rounding.

(** ** Binary64 arithmetic *)

Section Binary64Facts.
Import Aggregator Binary64.
Open Scope Q_scope.

Lemma pow2_pos e : 0 < pow2 e.
Proof. apply Qpower_0_lt. reflexivity. Qed.

Lemma pow2_plus a b : pow2 (a + b) == pow2 a * pow2 b.
Proof. apply Qpower_plus. discriminate. Qed.

Lemma pow2_succ a : pow2 (a + 1) == 2 * pow2 a.
Proof. rewrite pow2_plus. change (pow2 1) with 2. ring. Qed.

Lemma pow2_le a b : (a <= b)%Z -> pow2 a <= pow2 b.
Proof. intros H. apply Qpower_le_compat_l; [exact H|discriminate]. Qed.

Lemma pow2_lt_inv a b : pow2 a < pow2 b -> (a < b)%Z.
Proof. intros H. apply (Qpower_lt_compat_l_inv 2); [exact H|reflexivity]. Qed.

Lemma pow2_inject a : (0 <= a)%Z -> inject_Z (2 ^ a) == pow2 a.
Proof. intros H. by rewrite Zpower_Qpower. Qed.

Lemma ilog2_spec x : 0 < x -> pow2 (ilog2 x) <= x < pow2 (ilog2 x + 1).
Proof.
  intros Hx. destruct x as [n d].
  assert (Hn : (0 < n)%Z) by (unfold Qlt in Hx; simpl in Hx; lia).
  unfold ilog2. cbn [Qnum Qden].
  set (a := Z.log2 n). set (b := Z.log2 (Z.pos d)).
  assert (Ha0 : (0 <= a)%Z) by apply Z.log2_nonneg.
  assert (Hb0 : (0 <= b)%Z) by apply Z.log2_nonneg.
  destruct (Z.log2_spec n Hn) as [Ha1 Ha2]. fold a in Ha1, Ha2.
  destruct (Z.log2_spec (Z.pos d) ltac:(lia)) as [Hb1 Hb2]. fold b in Hb1, Hb2.
  rewrite Zle_Qle, pow2_inject in Ha1, Hb1 by lia.
  rewrite Zlt_Qlt, <- Z.add_1_r, pow2_inject, pow2_succ in Ha2, Hb2 by lia.
  pose proof (pow2_pos a) as HA. pose proof (pow2_pos b) as HB.
  assert (Hk : pow2 (a - b) * pow2 b == pow2 a).
  { rewrite <- pow2_plus. by replace (a - b + b)%Z with a by lia. }
  assert (Hx' : (n # d) * inject_Z (Z.pos d) == inject_Z n).
  { rewrite (Qmake_Qdiv n d). field. intros H. 
    assert (0 < inject_Z (Z.pos d)) by (rewrite <- (Zlt_Qlt 0); lia). lra. }
  set (K := pow2 (a - b)) in *. set (X := n # d) in *.
  set (N := inject_Z n) in *. set (D := inject_Z (Z.pos d)) in *.
  set (A := pow2 a) in *. set (B := pow2 b) in *.
  assert (HK : 0 < K) by apply pow2_pos.
  assert (Hup : X < 2 * K).
  { apply Qnot_le_lt. intros H. 
    assert (2 * K * D <= X * D) by (apply Qmult_le_compat_r; lra).
    assert (K * B <= K * D) by (apply Qmult_le_l; lra). lra. }
  assert (Hlo : K < 2 * X).
  { apply Qnot_le_lt. intros H.
    assert (2 * X * D <= K * D) by (apply Qmult_le_compat_r; lra).
    assert (K * D < K * (2 * B)) by (apply Qmult_lt_l; lra). lra. }
  destruct (Qle_bool K X) eqn:Hb.
  - apply Qle_bool_iff in Hb. fold K. rewrite pow2_succ. fold K. lra.
  - assert (Hlt : X < K).
    { apply Qnot_le_lt. intros H. apply Qle_bool_iff in H. congruence. }
    replace (a - b - 1 + 1)%Z with (a - b)%Z by lia. fold K.
    assert (HK1 : 2 * pow2 (a - b - 1) == K).
    { rewrite <- pow2_succ. unfold K. by replace (a - b - 1 + 1)%Z with (a - b)%Z by lia. }
    lra.
Qed.


Lemma pow2_small e : (e <= 0)%Z -> pow2 e <= 1.
Proof. intros H. change 1 with (pow2 0). by apply pow2_le. Qed.

Lemma pow2_half e : pow2 (e - 1) * 2 == pow2 e.
Proof.
  rewrite Qmult_comm, <- pow2_succ. by replace (e - 1 + 1)%Z with e by lia.
Qed.

Lemma rint_nonpos x : x <= 0 -> (rint x <= 0)%Z.
Proof. intros H. by apply rint_le_integer. Qed.

Lemma Qabs_ilog2 x : 0 < x -> ilog2 (Qabs x) = ilog2 x.
Proof.
  destruct x as [[|n|n] d]; intros H; try reflexivity;
    unfold Qlt in H; simpl in H; lia.
Qed.

Lemma b64_unfold x :
  b64 x = if Qeq_bool x 0 then Fin 0
          else if Qle_bool (pow2 1024) (Qabs (nearest x))
               then inf_of_sign (Qlt_bool 0 x) else Fin (Qred (nearest x)).
Proof. reflexivity. Qed.

Lemma nearest_close x :
  x - pow2 (quantum x - 1) <= nearest x <= x + pow2 (quantum x - 1).
Proof.
  unfold nearest. set (e := quantum x).
  pose proof (pow2_pos e) as He. pose proof (pow2_half e) as Hh.
  pose proof (rint_close (x / pow2 e)) as [Hlo Hhi].
  assert (Hx : x / pow2 e * pow2 e == x) by (field; lra).
  apply (Qmult_le_compat_r _ _ (pow2 e)) in Hlo; [|lra].
  apply (Qmult_le_compat_r _ _ (pow2 e)) in Hhi; [|lra].
  lra.
Qed.

Lemma nearest_sign x :
  (0 <= x -> 0 <= nearest x) /\ (x <= 0 -> nearest x <= 0).
Proof.
  unfold nearest. set (e := quantum x). pose proof (pow2_pos e) as He.
  split; intros Hx.
  - apply Qmult_le_0_compat; [|lra].
    change 0 with (inject_Z 0). rewrite <- Zle_Qle. apply rint_nonneg.
    apply Qle_shift_div_l; lra.
  - assert (H : inject_Z (rint (x / pow2 e)) <= 0).
    { change 0 with (inject_Z 0). rewrite <- Zle_Qle. apply rint_nonpos.
      apply Qle_shift_div_r; lra. }
    assert (0 <= (- inject_Z (rint (x / pow2 e))) * pow2 e)
      by (apply Qmult_le_0_compat; lra).
    lra.
Qed.

(** Half the spacing around a positive [x] is at most [x * 2^-53], or
    [2^-1075] for a subnormal [x]. *)
Lemma half_quantum x :
  0 < x ->
  pow2 (quantum x - 1) <= x * pow2 (-53) + pow2 (-1075)
  /\ (pow2 (-1020) <= x -> pow2 (quantum x - 1) <= x * pow2 (-53)).
Proof.
  intros Hx. unfold quantum. rewrite Qabs_ilog2 by exact Hx.
  destruct (ilog2_spec x Hx) as [Hlo Hhi].
  pose proof (pow2_pos (-53)). pose proof (pow2_pos (-1075)).
  assert (Hn : pow2 (ilog2 x - 52 - 1) <= x * pow2 (-53)).
  { replace (ilog2 x - 52 - 1)%Z with (ilog2 x + -53)%Z by lia.
    rewrite pow2_plus. apply Qmult_le_compat_r; lra. }
  split.
  - destruct (Z.max_spec (ilog2 x - 52) (-1074)) as [[_ ->]|[_ ->]].
    + change (-1074 - 1)%Z with (-1075)%Z.
      assert (0 <= x * pow2 (-53)) by (apply Qmult_le_0_compat; lra). lra.
    + lra.
  - intros Hnorm.
    assert (HL : (-1020 < ilog2 x + 1)%Z) by (apply pow2_lt_inv; lra).
    rewrite Z.max_l by lia. exact Hn.
Qed.

Lemma no_overflow x :
  0 <= x -> x <= pow2 1020 -> x + (x * pow2 (-53) + pow2 (-1075)) < pow2 1024.
Proof.
  intros H0 Hx. pose proof (pow2_small (-53) ltac:(lia)).
  pose proof (pow2_small (-1075) ltac:(lia)).
  pose proof (pow2_pos (-53)).
  assert (x * pow2 (-53) <= x * 1) by (rewrite !(Qmult_comm x); apply Qmult_le_compat_r; lra).
  assert (1 <= pow2 1020) by (change 1 with (pow2 0); apply pow2_le; lia).
  assert (pow2 1022 < pow2 1024) by (apply Qpower_lt_compat_l; [lia|reflexivity]).
  assert (pow2 1022 == 4 * pow2 1020).
  { change 1022%Z with (1020 + 2)%Z. rewrite pow2_plus. change (pow2 2) with 4. ring. }
  lra.
Qed.

(** Rounding a positive number that is not too large: the result is
    finite, and off by at most [2^-53] of the number (or [2^-1075] in the
    subnormal range). *)
Lemma b64_pos x :
  0 < x -> x <= pow2 1020 ->
  exists r, b64 x = Fin r /\ 0 <= r
    /\ Qabs (r - x) <= x * pow2 (-53) + pow2 (-1075)
    /\ (pow2 (-1020) <= x -> Qabs (r - x) <= x * pow2 (-53)).
Proof.
  intros H0 Hx. rewrite b64_unfold.
  rewrite Qeq_bool_false by lra.
  pose proof (nearest_close x) as [Hlo Hhi].
  pose proof (proj1 (nearest_sign x) ltac:(lra)) as Hs.
  destruct (half_quantum x H0) as [Hq Hqn].
  pose proof (no_overflow x ltac:(lra) Hx) as Hov.
  assert (Hb : Qle_bool (pow2 1024) (Qabs (nearest x)) = false).
  { destruct (Qle_bool _ _) eqn:Hb; [|reflexivity]. apply Qle_bool_iff in Hb.
    rewrite Qabs_pos in Hb by exact Hs. lra. }
  rewrite Hb. exists (Qred (nearest x)). split; [reflexivity|].
  rewrite Qred_correct. split; [exact Hs|]. split.
  - apply Qabs_Qle_condition. lra.
  - intros Hn. specialize (Hqn Hn). apply Qabs_Qle_condition. lra.
Qed.

Lemma b64_zero x : x == 0 -> b64 x = Fin 0.
Proof. intros H. rewrite b64_unfold. by rewrite Qeq_bool_true. Qed.

(** A finite result has the sign of the number rounded. *)
Lemma b64_sign x r :
  b64 x = Fin r -> (0 <= x -> 0 <= r) /\ (x <= 0 -> r <= 0).
Proof.
  rewrite b64_unfold. destruct (Qeq_bool x 0).
  - intros [= <-]. split; intros; lra.
  - destruct (Qle_bool _ _); [destruct (Qlt_bool 0 x); discriminate|].
    intros [= <-]. rewrite Qred_correct. apply nearest_sign.
Qed.


Lemma b64_nearest x r : b64 x = Fin r -> r == nearest x.
Proof.
  rewrite b64_unfold. destruct (Qeq_bool x 0) eqn:Hx.
  - intros [= <-]. apply Qeq_bool_iff in Hx. unfold nearest.
    rewrite (rint_comp (x / pow2 (quantum x)) 0)
      by (apply Qeq_trans with (0 * / pow2 (quantum x));
          [apply Qmult_comp; [exact Hx|reflexivity]|ring]).
    change (rint 0) with 0%Z. ring.
  - destruct (Qle_bool _ _); [destruct (Qlt_bool 0 x); discriminate|].
    intros [= <-]. apply Qred_correct.
Qed.

(** A finite result of rounding a number of the normal range is within
    [2^-53] of it, relatively. *)
Lemma b64_normal x r :
  b64 x = Fin r -> pow2 (-1020) <= x ->
  x - x * pow2 (-53) <= r <= x + x * pow2 (-53).
Proof.
  intros Hr Hx. apply b64_nearest in Hr. rewrite Hr.
  pose proof (pow2_pos (-1020)).
  pose proof (nearest_close x) as [Hlo Hhi].
  destruct (half_quantum x ltac:(lra)) as [_ Hq]. specialize (Hq Hx). lra.
Qed.

End Binary64Facts.

Section RoundingFacts.
Import Aggregator Binary64.
Open Scope Q_scope.

Lemma pow2_m53 : pow2 (-53) = 1 # 9007199254740992.
Proof. reflexivity. Qed.

Lemma eta_small : pow2 (-1075) <= 1 # 9007199254740992.
Proof. rewrite <- pow2_m53. apply pow2_le. lia. Qed.

Lemma f64_mul_fin x y : f64_mul (Fin x) (Fin y) = b64 (x * y).
Proof. reflexivity. Qed.

Lemma f64_div_fin x y : ~ y == 0 -> f64_div (Fin x) (Fin y) = b64 (x / y).
Proof. intros H. unfold f64_div, fl_div. by rewrite Qeq_bool_false. Qed.

Lemma np_round_unfold d a :
  np_round d a
  = f64_div (fl_rint (f64_mul a (Fin (inject_Z (10 ^ Z.of_nat d)))))
            (Fin (inject_Z (10 ^ Z.of_nat d))).
Proof. reflexivity. Qed.

Lemma ten_pow_pos d : 0 < inject_Z (10 ^ Z.of_nat d).
Proof. change 0 with (inject_Z 0). rewrite <- Zlt_Qlt. apply Z.pow_pos_nonneg; lia. Qed.

Lemma np_round_zero d q : q == 0 -> np_round d (Fin q) = Fin 0.
Proof.
  intros Hq. rewrite np_round_unfold. pose proof (ten_pow_pos d) as HK.
  rewrite f64_mul_fin, (b64_zero (q * _)) by (rewrite Hq; ring).
  cbn [fl_rint]. change (rint 0) with 0%Z.
  rewrite f64_div_fin by lra. apply b64_zero. field. lra.
Qed.

(** Rounding to four decimals moves a number between 0 and 4 by at most
    0.00005, up to the error of the two float operations. *)
Lemma np_round_4 q :
  0 <= q <= 4 ->
  exists p, np_round 4 (Fin q) = Fin p /\ 0 <= p
            /\ Qabs (p - q) <= (1 # 20000) + pow2 (-49).
Proof.
  intros [H0 H4].
  assert (Hc : pow2 (-49) = 1 # 562949953421312) by reflexivity.
  destruct (Qeq_dec q 0) as [Hz|Hnz].
  { exists 0. rewrite (np_round_zero 4 q Hz). split; [reflexivity|]. split; [lra|].
    apply Qabs_Qle_condition. rewrite Hc. lra. }
  rewrite np_round_unfold. change (inject_Z (10 ^ Z.of_nat 4)) with 10000.
  pose proof eta_small as Heta.
  assert (H1020 : 80000 <= pow2 1020).
  { apply Qle_trans with (pow2 17); [by vm_compute|apply pow2_le; lia]. }
  destruct (b64_pos (q * 10000)) as (y & Hy & Hy0 & Hye & _); [lra|lra|].
  rewrite f64_mul_fin, Hy. cbn [fl_rint].
  apply Qabs_Qle_condition in Hye. rewrite pow2_m53 in Hye.
  pose proof (rint_close y) as Hz. pose proof (rint_nonneg y Hy0) as Hz0.
  rewrite Zle_Qle in Hz0. change (inject_Z 0) with 0 in Hz0.
  set (z := inject_Z (rint y)) in *.
  rewrite f64_div_fin by discriminate.
  destruct (Qeq_dec z 0) as [Hzz|Hzn].
  - exists 0. rewrite b64_zero by (rewrite Hzz; reflexivity).
    split; [reflexivity|]. split; [lra|]. apply Qabs_Qle_condition. rewrite Hc. lra.
  - destruct (b64_pos (z / 10000)) as (p & Hp & Hp0 & Hpe & _).
    + apply Qlt_shift_div_l; lra.
    + apply Qle_shift_div_r; lra.
    + exists p. split; [exact Hp|]. split; [exact Hp0|].
      apply Qabs_Qle_condition in Hpe. rewrite pow2_m53 in Hpe.
      assert (Hd : z / 10000 == z * (1 # 10000)) by (field).
      rewrite Hd in Hpe. apply Qabs_Qle_condition. rewrite Hc. lra.
Qed.

(** A percentage rounded to two decimals is zero or at least [2^-7]. *)
Lemma np_round_2_range a p :
  np_round 2 a = Fin p -> 0 <= p -> p == 0 \/ pow2 (-7) <= p.
Proof.
  rewrite np_round_unfold. change (inject_Z (10 ^ Z.of_nat 2)) with 100.
  intros H Hp.
  destruct (fl_rint (f64_mul a (Fin 100))) as [z| | |] eqn:Hz;
    [|discriminate H|discriminate H|discriminate H].
  rewrite f64_div_fin in H by discriminate.
  assert (Hint : exists n : Z, z = inject_Z n).
  { destruct (f64_mul a (Fin 100)) as [y| | |]; try discriminate Hz.
    injection Hz as <-. by eexists. }
  destruct Hint as [n ->].
  destruct (Z_le_gt_dec n 0) as [Hn|Hn].
  - left. destruct (b64_sign _ _ H) as [_ Hneg].
    assert (inject_Z n <= 0) by (change 0 with (inject_Z 0); by rewrite <- Zle_Qle).
    assert (p <= 0); [|lra]. apply Hneg. apply Qle_shift_div_r; lra.
  - right.
    assert (H1 : 1 <= inject_Z n) by (change 1 with (inject_Z 1); rewrite <- Zle_Qle; lia).
    assert (Hx : 1 # 100 <= inject_Z n / 100) by (apply Qle_shift_div_l; lra).
    assert (Hnorm : pow2 (-1020) <= inject_Z n / 100).
    { apply Qle_trans with (pow2 (-7)); [apply pow2_le; lia|].
      change (pow2 (-7)) with (1 # 128). lra. }
    pose proof (b64_normal _ _ H Hnorm) as [Hlo _]. rewrite pow2_m53 in Hlo.
    change (pow2 (-7)) with (1 # 128). lra.
Qed.

(** Rounding to two decimals moves a number between 0 and 101 by at most
    0.005, up to the error of the two float operations. *)
Lemma np_round_2 q :
  0 <= q <= 101 ->
  exists p, np_round 2 (Fin q) = Fin p /\ 0 <= p
            /\ Qabs (p - q) <= (1 # 200) + pow2 (-40).
Proof.
  intros [H0 H4].
  assert (Hc : pow2 (-40) = 1 # 1099511627776) by reflexivity.
  destruct (Qeq_dec q 0) as [Hz|Hnz].
  { exists 0. rewrite (np_round_zero 2 q Hz). split; [reflexivity|]. split; [lra|].
    apply Qabs_Qle_condition. rewrite Hc. lra. }
  rewrite np_round_unfold. change (inject_Z (10 ^ Z.of_nat 2)) with 100.
  pose proof eta_small as Heta.
  assert (H1020 : 80000 <= pow2 1020).
  { apply Qle_trans with (pow2 17); [by vm_compute|apply pow2_le; lia]. }
  destruct (b64_pos (q * 100)) as (y & Hy & Hy0 & Hye & _); [lra|lra|].
  rewrite f64_mul_fin, Hy. cbn [fl_rint].
  apply Qabs_Qle_condition in Hye. rewrite pow2_m53 in Hye.
  pose proof (rint_close y) as Hz. pose proof (rint_nonneg y Hy0) as Hz0.
  rewrite Zle_Qle in Hz0. change (inject_Z 0) with 0 in Hz0.
  set (z := inject_Z (rint y)) in *.
  rewrite f64_div_fin by discriminate.
  destruct (Qeq_dec z 0) as [Hzz|Hzn].
  - exists 0. rewrite b64_zero by (rewrite Hzz; reflexivity).
    split; [reflexivity|]. split; [lra|]. apply Qabs_Qle_condition. rewrite Hc. lra.
  - destruct (b64_pos (z / 100)) as (p & Hp & Hp0 & Hpe & _).
    + apply Qlt_shift_div_l; lra.
    + apply Qle_shift_div_r; lra.
    + exists p. split; [exact Hp|]. split; [exact Hp0|].
      apply Qabs_Qle_condition in Hpe. rewrite pow2_m53 in Hpe.
      assert (Hd : z / 100 == z * (1 # 100)) by (field).
      rewrite Hd in Hpe. apply Qabs_Qle_condition. rewrite Hc. lra.
Qed.

End RoundingFacts.

(** ** Sums of floats *)

Section SeqSum.
Import Aggregator Binary64 Reference.
Open Scope Q_scope.

Lemma filter_isna_fin (l : list Q) :
  filter (fun a => isna a = false) (Fin <$> l) = Fin <$> l.
Proof.
  induction l as [|x l IH]; [reflexivity|].
  rewrite fmap_cons, filter_cons_True by reflexivity. by rewrite IH.
Qed.

Lemma Qsum_zero_or_normal (l : list Q) :
  Forall (fun a => a == 0 \/ pow2 (-1000) <= a) l ->
  Qsum l == 0 \/ pow2 (-1000) <= Qsum l.
Proof.
  pose proof (pow2_pos (-1000)).
  induction 1 as [|a l Ha _ IH]; [by left|].
  rewrite Qsum_cons. destruct Ha as [Ha|Ha], IH as [IH|IH]; [left|right|right|right]; lra.
Qed.

Lemma Qsum_nonneg (l : list Q) : Forall (fun a => 0 <= a) l -> 0 <= Qsum l.
Proof.
  induction 1 as [|a l Ha _ IH]; [apply Qle_refl|]. rewrite Qsum_cons. lra.
Qed.

Lemma zero_or_normal_nonneg (l : list Q) :
  Forall (fun a => a == 0 \/ pow2 (-1000) <= a) l -> Forall (fun a => 0 <= a) l.
Proof.
  pose proof (pow2_pos (-1000)). intros Hl. eapply Forall_impl; [exact Hl|].
  intros a [Ha|Ha]; lra.
Qed.

Lemma nat_below_2_20 (k : nat) :
  (Z.of_nat k < 2 ^ 20)%Z -> 0 <= inject_Z (Z.of_nat k) <= 1048576.
Proof.
  intros Hk. split.
  - change 0 with (inject_Z 0). rewrite <- Zle_Qle. lia.
  - change 1048576 with (inject_Z 1048576). rewrite <- Zle_Qle. lia.
Qed.

(** One addition: from a partial sum [s] within [k * 2^-52] of the exact
    [t], to one within [(k + 1) * 2^-52]. *)
Lemma f64_add_step (s t a : Q) (k : nat) :
  (Z.of_nat k < 2 ^ 20)%Z ->
  a == 0 \/ pow2 (-1000) <= a ->
  t == 0 \/ pow2 (-1000) <= t ->
  t + a <= pow2 1000 ->
  Qabs (s - t) <= inject_Z (Z.of_nat k) * pow2 (-52) * t ->
  exists r, f64_add (Fin s) (Fin a) = Fin r
    /\ Qabs (r - (t + a)) <= inject_Z (Z.of_nat (S k)) * pow2 (-52) * (t + a).
Proof.
  intros Hk Ha Ht Hta Hs.
  assert (Hu2 : pow2 (-52) = 1 # 4503599627370496) by reflexivity.
  pose proof (pow2_pos (-1000)) as Hpos.
  assert (Ha0 : 0 <= a) by (destruct Ha; lra).
  assert (Ht0 : 0 <= t) by (destruct Ht; lra).
  destruct (nat_below_2_20 k Hk) as [Hk0 Hk1].
  rewrite Nat2Z.inj_succ, <- Z.add_1_r, inject_Z_plus.
  change (inject_Z 1) with 1.
  set (K := inject_Z (Z.of_nat k)) in *.
  assert (HKt : 0 <= K * t) by (apply Qmult_le_0_compat; lra).
  assert (HKt' : K * t <= 1048576 * t) by (apply Qmult_le_compat_r; lra).
  assert (HKa : 0 <= K * a) by (apply Qmult_le_0_compat; lra).
  apply Qabs_Qle_condition in Hs. rewrite Hu2 in Hs |- *.
  assert (Hs' : K * (1 # 4503599627370496) * t == K * t * (1 # 4503599627370496))
    by ring.
  rewrite Hs' in Hs.
  assert (H1020 : 2 * pow2 1000 <= pow2 1020)
    by (rewrite <- pow2_succ; apply pow2_le; lia).
  assert (Hm1020 : pow2 (-1020) <= pow2 (-1000) * (1 # 2)).
  { assert (pow2 (-1000) == 2 * pow2 (-1001))
      by (rewrite <- pow2_succ; reflexivity).
    assert (pow2 (-1020) <= pow2 (-1001)) by (apply pow2_le; lia). lra. }
  assert (He : (K + 1) * (1 # 4503599627370496) * (t + a)
               == K * t * (1 # 4503599627370496) + K * a * (1 # 4503599627370496)
                  + (t + a) * (1 # 4503599627370496)) by ring.
  unfold f64_add. cbn [fl_add round64].
  destruct (Qeq_dec (t + a) 0) as [Hz|Hnz].
  - exists 0. rewrite b64_zero by lra. split; [reflexivity|].
    apply Qabs_Qle_condition. rewrite He. lra.
  - assert (Hta' : pow2 (-1000) <= t + a) by (destruct Ht, Ha; lra).
    destruct (b64_pos (s + a)) as (r & Hr & _ & _ & Hre); [lra|lra|].
    exists r. split; [exact Hr|].
    specialize (Hre ltac:(lra)). apply Qabs_Qle_condition in Hre.
    rewrite pow2_m53 in Hre. apply Qabs_Qle_condition. rewrite He. lra.
Qed.

Lemma seq_sum_step (l : list Q) : forall (s t : Q) (k : nat),
  Forall (fun a => a == 0 \/ pow2 (-1000) <= a) l ->
  (Z.of_nat (k + length l) < 2 ^ 20)%Z ->
  t + Qsum l <= pow2 1000 ->
  t == 0 \/ pow2 (-1000) <= t ->
  Qabs (s - t) <= inject_Z (Z.of_nat k) * pow2 (-52) * t ->
  exists s', foldl f64_add (Fin s) (Fin <$> l) = Fin s'
    /\ Qabs (s' - (t + Qsum l))
       <= inject_Z (Z.of_nat (k + length l)) * pow2 (-52) * (t + Qsum l).
Proof.
  pose proof (pow2_pos (-1000)) as Hpos.
  induction l as [|a l IH]; intros s t k Hl Hk Ht Ht0 Hs.
  - exists s. split; [reflexivity|]. cbn [length Qsum foldr].
    rewrite Nat.add_0_r.
    assert (He : t + 0 == t) by ring. by rewrite He.
  - apply Forall_cons in Hl as [Ha Hl]. cbn [length] in Hk.
    rewrite Qsum_cons in Ht |- *.
    pose proof (Qsum_nonneg l (zero_or_normal_nonneg l Hl)) as Hl0.
    destruct (f64_add_step s t a k) as (r & Hr & Hre); try done; [lia|lra|].
    cbn [fmap list_fmap foldl]. change (list_fmap Q fl Fin l) with (Fin <$> l).
    rewrite Hr.
    destruct (IH r (t + a) (S k)) as (s' & Hs'1 & Hs'2); try done.
    + lia.
    + lra.
    + destruct Ht0, Ha; [left|right|right|right]; lra.
    + exists s'. split; [exact Hs'1|].
      replace (k + length (a :: l))%nat with (S k + length l)%nat
        by (cbn [length]; lia).
      assert (He : t + (a + Qsum l) == t + a + Qsum l) by ring.
      by rewrite He.
Qed.

Lemma seq_sum_accurate : accurate_sum Samples.seq_sum.
Proof.
  intros l Hl Hn HS. unfold Samples.seq_sum. rewrite filter_isna_fin.
  assert (H0 : 0 + Qsum l == Qsum l) by ring.
  assert (Hinit : Qabs (0 - 0) <= inject_Z (Z.of_nat 0) * pow2 (-52) * 0)
    by (apply Qabs_Qle_condition; change (inject_Z (Z.of_nat 0)) with 0; lra).
  destruct (seq_sum_step l 0 0 0%nat Hl Hn ltac:(by rewrite H0) ltac:(by left) Hinit)
    as (s & Hs & He).
  exists s. split; [exact Hs|]. cbn [Nat.add] in He. by rewrite H0 in He.
Qed.

End SeqSum.

(** ** The matrices of the script *)

Section Lengths.
Import Aggregator.

Lemma length_remove_dups_le {A} `{EqDecision A} (l : list A) :
  (length (remove_dups l) <= length l)%nat.
Proof.
  induction l as [|x l IH]; [done|]. cbn [remove_dups length].
  destruct (decide_rel elem_of x l); cbn [length]; lia.
Qed.

Lemma length_omap_le {A B} (f : A -> option B) (l : list A) :
  (length (omap f l) <= length l)%nat.
Proof.
  induction l as [|x l IH]; [done|]. cbn [omap list_omap length].
  destruct (f x); cbn [length]; fold (omap f l); lia.
Qed.

Lemma length_sorted_labels_le (l : list string) :
  (length (sorted_labels l) <= length l)%nat.
Proof.
  unfold sorted_labels. rewrite merge_sort_Permutation. apply length_remove_dups_le.
Qed.

End Lengths.

Section Step8.
Context {P : Pandas}.
Import Aggregator Binary64 Reference Matrices.
Open Scope Q_scope.

Lemma area64_close (o : Obs) :
  1 <= obs_area o <= pow2 890 ->
  b64 (obs_area o) = Fin (area64 o) /\ 1 # 2 <= area64 o <= 2 * obs_area o.
Proof.
  intros [H1 H2]. unfold area64.
  assert (pow2 890 <= pow2 1020) by (apply pow2_le; lia).
  assert (pow2 (-1020) <= 1) by (apply pow2_small; lia).
  destruct (b64_pos (obs_area o)) as (r & Hr & _ & _ & Hre); [lra|lra|].
  specialize (Hre ltac:(lra)). apply Qabs_Qle_condition in Hre.
  rewrite pow2_m53 in Hre. rewrite Hr. cbn [fl_val]. split; [done|]. lra.
Qed.

Variable df : list Obs.
Hypothesis series_sum_accurate : accurate_sum series_sum.
Hypothesis groupby_sum_accurate : accurate_sum groupby_sum.
Hypothesis areas_min : forall o, o ∈ df -> 1 <= obs_area o.
Hypothesis few_records : (Z.of_nat (length df) < 2 ^ 20)%Z.
Hypothesis total_bounded : Qsum (obs_area <$> df) <= pow2 890.

Lemma area_range o : o ∈ df -> 1 <= obs_area o <= pow2 890.
Proof.
  intros Ho. split; [by apply areas_min|].
  apply Qle_trans with (Qsum_over obs_area df); [|exact total_bounded].
  apply Qsum_over_elem_le; [|done]. intros y Hy.
  pose proof (areas_min y Hy). lra.
Qed.

(** The exact sum of the float areas of a part of the rows. *)
Lemma sublist_areas (g : list Obs) :
  g ⊆ df ->
  areas g = Fin <$> (area64 <$> g)
  /\ Forall (fun a => a == 0 \/ pow2 (-1000) <= a) (area64 <$> g)
  /\ inject_Z (Z.of_nat (length g)) * (1 # 2) <= Qsum (area64 <$> g)
  /\ Qsum (area64 <$> g) <= 2 * Qsum (obs_area <$> g).
Proof.
  intros Hg. unfold areas.
  assert (Hm : pow2 (-1000) <= 1 # 2)
    by (change (1 # 2) with (pow2 (-1)); apply pow2_le; lia).
  induction g as [|o g IH].
  - split; [done|]. split; [constructor|].
    change (Qsum (area64 <$> [])) with 0. change (Qsum (obs_area <$> [])) with 0.
    change (inject_Z (Z.of_nat (length (@nil Obs)))) with 0. split; lra.
  - destruct IH as (IH1 & IH2 & IH3 & IH4).
    { intros x Hx. apply Hg. by constructor. }
    destruct (area64_close o) as [Ho Hob]; [apply area_range, Hg; constructor|].
    rewrite !fmap_cons, IH1, Ho, !Qsum_cons. split; [done|].
    split; [constructor; [right; lra|done]|].
    cbn [length]. rewrite Nat2Z.inj_succ, <- Z.add_1_r, inject_Z_plus.
    change (inject_Z 1) with 1. split; lra.
Qed.

Lemma Qsum_sublist_le (P0 : Obs -> Prop) `{!forall x, Decision (P0 x)} :
  Qsum (obs_area <$> filter P0 df) <= Qsum (obs_area <$> df).
Proof.
  apply (Qsum_over_filter_le obs_area P0 df). intros x Hx.
  pose proof (areas_min x Hx). lra.
Qed.

Lemma filter_subseteq_df (P0 : Obs -> Prop) `{!forall x, Decision (P0 x)} :
  filter P0 df ⊆ df.
Proof. intros x Hx. by apply list_elem_of_filter in Hx as [_ Hx]. Qed.

Lemma area64_nonneg o : o ∈ df -> 0 <= area64 o.
Proof.
  intros Ho. destruct (area64_close o (area_range o Ho)) as [_ [H _]]. lra.
Qed.

Lemma total_close :
  exists t, total_area df = Fin t
    /\ Qabs (t - Qsum (area64 <$> df)) <= (1 # 4294967296) * Qsum (area64 <$> df)
    /\ t <= pow2 900 /\ (df <> [] -> pow2 (-10) <= t).
Proof.
  destruct (sublist_areas df ltac:(done)) as (Ha & Hn & Hlo & Hhi).
  assert (H891 : 2 * pow2 890 == pow2 891) by (rewrite <- pow2_succ; reflexivity).
  assert (H892 : 2 * pow2 891 == pow2 892) by (rewrite <- pow2_succ; reflexivity).
  assert (pow2 891 <= pow2 1000) by (apply pow2_le; lia).
  assert (pow2 892 <= pow2 900) by (apply pow2_le; lia).
  pose proof (pow2_pos 890).
  destruct (series_sum_accurate (area64 <$> df)) as (t & Ht & He);
    [done|by rewrite length_fmap|lra|].
  rewrite length_fmap in He.
  destruct (nat_below_2_20 _ few_records) as [HN0 HN1].
  set (N := inject_Z (Z.of_nat (length df))) in *.
  set (T := Qsum (area64 <$> df)) in *.
  change (pow2 (-52)) with (1 # 4503599627370496) in He.
  assert (HT : 0 <= T) by lra.
  assert (HNT : 0 <= N * T) by (apply Qmult_le_0_compat; lra).
  assert (HNT' : N * T <= 1048576 * T) by (apply Qmult_le_compat_r; lra).
  apply Qabs_Qle_condition in He.
  assert (He' : N * (1 # 4503599627370496) * T == N * T * (1 # 4503599627370496))
    by ring.
  rewrite He' in He.
  unfold total_area. rewrite Ha. exists t. split; [exact Ht|]. split; [|split].
  - apply Qabs_Qle_condition. lra.
  - lra.
  - intros Hne. change (pow2 (-10)) with (1 # 1024).
    assert (1 <= N).
    { unfold N. change 1 with (inject_Z 1). rewrite <- Zle_Qle.
      destruct df; [done|]. cbn [length]. lia. }
    lra.
Qed.

Lemma group_cell r c :
  exists g, cell (matrix df) r c = Fin g
    /\ 0 <= g <= (1 + (1 # 4294967296)) * Qsum (area64 <$> df).
Proof.
  cbn [matrix cell].
  pose proof (filter_subseteq_df (in_group r c)) as Hsub.
  assert (Hle : Qsum (area64 <$> filter (in_group r c) df) <= Qsum (area64 <$> df))
    by (apply (Qsum_over_filter_le area64 (in_group r c) df), area64_nonneg).
  assert (Hlen : (Z.of_nat (length (filter (in_group r c) df)) < 2 ^ 20)%Z)
    by (pose proof (length_filter (in_group r c) df); lia).
  destruct (sublist_areas (filter (in_group r c) df) Hsub) as (Ha & Hn & Hlo & _).
  destruct (sublist_areas df ltac:(done)) as (_ & _ & Hlo' & Hhi').
  assert (H891 : 2 * pow2 890 == pow2 891) by (rewrite <- pow2_succ; reflexivity).
  assert (pow2 891 <= pow2 1000) by (apply pow2_le; lia).
  pose proof (pow2_pos 890).
  destruct (nat_below_2_20 _ Hlen) as [HN0 HN1].
  destruct (nat_below_2_20 _ few_records) as [HN0' _].
  destruct (filter (in_group r c) df) as [|o G] eqn:HG.
  - exists 0. split; [reflexivity|]. lra.
  - rewrite Ha.
    destruct (groupby_sum_accurate (area64 <$> o :: G)) as (g & Hg & He);
      [done|by rewrite length_fmap|lra|].
    rewrite length_fmap in He.
    set (N := inject_Z (Z.of_nat (length (o :: G)))) in *.
    set (T := Qsum (area64 <$> o :: G)) in *.
    change (pow2 (-52)) with (1 # 4503599627370496) in He.
    assert (HT : 0 <= T) by lra.
    assert (HNT : 0 <= N * T) by (apply Qmult_le_0_compat; lra).
    assert (HNT' : N * T <= 1048576 * T) by (apply Qmult_le_compat_r; lra).
    apply Qabs_Qle_condition in He.
    assert (He' : N * (1 # 4503599627370496) * T == N * T * (1 # 4503599627370496))
      by ring.
    rewrite He' in He.
    exists g. split; [exact Hg|]. lra.
Qed.

Lemma pct_cell_unfold r c :
  cell (matrix_pct df) r c
  = if bool_decide (c ∈ columns (matrix df))
    then np_round 2 (f64_mul (f64_div (cell (matrix df) r c) (total_area df)) (Fin 100))
    else Fin 0.
Proof. reflexivity. Qed.

Lemma pct_range_of_inputs :
  df <> [] ->
  forall r c, exists p, cell (matrix_pct df) r c = Fin p /\ 0 <= p <= 101.
Proof.
  intros Hne r c. rewrite pct_cell_unfold.
  destruct (bool_decide _); [|exists 0; split; [done|lra]].
  destruct total_close as (t & Ht & Hte & _ & Htlo). specialize (Htlo Hne).
  destruct (group_cell r c) as (g & Hg & Hg0 & Hg1).
  rewrite Hg, Ht.
  apply Qabs_Qle_condition in Hte.
  set (T := Qsum (area64 <$> df)) in *.
  change (pow2 (-10)) with (1 # 1024) in Htlo.
  pose proof eta_small as Heta.
  assert (H1020 : 200 <= pow2 1020).
  { apply Qle_trans with (pow2 8); [by vm_compute|apply pow2_le; lia]. }
  assert (Hq : 0 <= g / t <= 1 + (1 # 1073741824)).
  { split; [apply Qle_shift_div_l; lra|apply Qle_shift_div_r; lra]. }
  rewrite f64_div_fin by lra.
  assert (Hx1 : exists x1, b64 (g / t) = Fin x1 /\ 0 <= x1 <= 1 + (1 # 1000)).
  { destruct (Qeq_dec (g / t) 0) as [Hz|Hnz].
    - exists 0. rewrite (b64_zero _ Hz). split; [done|lra].
    - destruct (b64_pos (g / t)) as (x1 & Hx1 & Hp & He & _); [lra|lra|].
      exists x1. split; [done|]. apply Qabs_Qle_condition in He.
      rewrite pow2_m53 in He. lra. }
  destruct Hx1 as (x1 & -> & Hx1a & Hx1b). rewrite f64_mul_fin.
  assert (Hx2 : exists x2, b64 (x1 * 100) = Fin x2 /\ 0 <= x2 <= 100 + (1 # 2)).
  { destruct (Qeq_dec (x1 * 100) 0) as [Hz|Hnz].
    - exists 0. rewrite (b64_zero _ Hz). split; [done|lra].
    - destruct (b64_pos (x1 * 100)) as (x2 & Hx2 & Hp & He & _); [lra|lra|].
      exists x2. split; [done|]. apply Qabs_Qle_condition in He.
      rewrite pow2_m53 in He. lra. }
  destruct Hx2 as (x2 & -> & Hx2a & Hx2b).
  destruct (np_round_2 x2 ltac:(lra)) as (p & Hp & Hp0 & Hpe).
  exists p. split; [exact Hp|]. apply Qabs_Qle_condition in Hpe.
  change (pow2 (-40)) with (1 # 1099511627776) in Hpe. lra.
Qed.

End Step8.

Section RowRemoval.
Import Aggregator.

(** Dropping the two rows by their labels as read back keeps the rows
    whose labels as written are others, when the two names are read back
    as themselves. *)
Lemma drop_two_rows (f : string -> Matrices.Label) (idx : list string) :
  (forall s name, s ∈ idx -> name ∈ rows_to_remove ->
                  f s = Matrices.Text name <-> s = name) ->
  filter (fun l => l <> Matrices.Text "Others")
    (filter (fun l => l <> Matrices.Text "Commercial thinning") (f <$> idx))
  = f <$> filter (fun r => r ∉ rows_to_remove) idx.
Proof.
  unfold rows_to_remove.
  induction idx as [|r rs IH]; intros Hf; [reflexivity|].
  assert (Hr : forall name, name ∈ ["Commercial thinning"; "Others"] ->
                 f r = Matrices.Text name <-> r = name)
    by (intros name; apply Hf; constructor).
  specialize (IH ltac:(intros s name Hs; apply Hf; by constructor)).
  rewrite fmap_cons.
  destruct (decide (r = "Commercial thinning")) as [->|H1].
  - rewrite (filter_cons_False _ (f "Commercial thinning")).
    + rewrite (filter_cons_False (fun r => r ∉ _)); [exact IH|].
      intros H. apply H. constructor.
    + intros H. apply H. apply Hr; [constructor|done].
  - rewrite (filter_cons_True _ (f r))
      by (intros H; apply H1; apply (Hr "Commercial thinning"); [constructor|done]).
    destruct (decide (r = "Others")) as [->|H2].
    + rewrite (filter_cons_False _ (f "Others")).
      * rewrite (filter_cons_False (fun r => r ∉ _)); [exact IH|].
        intros H. apply H. right. constructor.
      * intros H. apply H. apply Hr; [right; constructor|done].
    + rewrite (filter_cons_True _ (f r))
        by (intros H; apply H2; apply (Hr "Others"); [right; constructor|done]).
      rewrite (filter_cons_True (fun r => r ∉ _)).
      * rewrite fmap_cons. by rewrite IH.
      * intros H. apply elem_of_cons in H as [->|H]; [done|].
        apply list_elem_of_singleton in H. done.
Qed.

End RowRemoval.

Section Step9.
Context {P : Pandas}.
Import Aggregator Binary64 Reference Matrices.
Open Scope Q_scope.

Variable df : list Obs.
Variable t : Q.
Hypothesis frame_sum_accurate : accurate_sum frame_sum.
Hypothesis names_kept : keeps_row_names.
Hypothesis total_fin : total_area df = Fin t.
Hypothesis total_range : pow2 (-10) <= t <= pow2 900.
Hypothesis pct_range :
  forall r c, exists p, cell (matrix_pct df) r c = Fin p /\ 0 <= p <= 101.
Hypothesis few_rows : (Z.of_nat (length (index (matrix_pct df))) < 2 ^ 20)%Z.

Lemma filtered_value l c :
  value (matrix_filtered df) l c
  = f64_mul (f64_div (cell (matrix_pct df) (written l) c) (Fin 100)) (total_area df).
Proof. reflexivity. Qed.

Lemma prob_value l c :
  value (matrix_prob df) l c
  = np_round 4 (fillna0 (f64_div (value (matrix_filtered df) l c)
                                 (column_sum (matrix_filtered df) c))).
Proof. reflexivity. Qed.

Lemma prob_rows : rows (matrix_prob df) = rows (matrix_filtered df).
Proof. reflexivity. Qed.

Lemma filtered_rows :
  rows (matrix_filtered df)
  = read_label (index (matrix_pct df))
      <$> filter (fun r => r ∉ rows_to_remove) (index (matrix_pct df)).
Proof.
  apply (drop_two_rows (read_label (index (matrix_pct df)))).
  intros s name Hs Hname. unfold read_label. split.
  - destruct (keeps_text _ s); [by intros [= ->]|discriminate].
  - intros ->. by rewrite names_kept.
Qed.

Lemma back_area_zero p :
  p == 0 -> f64_mul (f64_div (Fin p) (Fin 100)) (Fin t) = Fin 0.
Proof.
  intros Hp. rewrite f64_div_fin by discriminate.
  rewrite (b64_zero (p / 100)) by (rewrite Hp; reflexivity).
  rewrite f64_mul_fin. apply b64_zero. ring.
Qed.

Lemma back_area_pos p :
  pow2 (-7) <= p <= 101 ->
  exists a, f64_mul (f64_div (Fin p) (Fin 100)) (Fin t) = Fin a
            /\ pow2 (-1000) <= a <= pow2 902.
Proof.
  change (pow2 (-7)) with (1 # 128). intros [Hlo Hhi].
  destruct total_range as [Ht0 Ht1]. change (pow2 (-10)) with (1 # 1024) in Ht0.
  assert (H1020 : 2 <= pow2 1020)
    by (change 2 with (pow2 1); apply pow2_le; lia).
  assert (Hm1020 : pow2 (-1020) <= 1 # 67108864)
    by (change (1 # 67108864) with (pow2 (-26)); apply pow2_le; lia).
  assert (Hx : p / 100 == p * (1 # 100)) by field.
  rewrite f64_div_fin by discriminate.
  destruct (b64_pos (p / 100)) as (w & Hw & _ & _ & Hwe); [lra|lra|].
  specialize (Hwe ltac:(lra)). apply Qabs_Qle_condition in Hwe.
  rewrite pow2_m53, Hx in Hwe. rewrite Hw, f64_mul_fin.
  assert (Hw1 : 1 # 32768 <= w) by lra. assert (Hw2 : w <= 2) by lra.
  assert (HX1 : (1 # 32768) * (1 # 1024) <= w * t).
  { apply Qle_trans with (w * (1 # 1024)).
    - apply Qmult_le_compat_r; lra.
    - rewrite !(Qmult_comm w). apply Qmult_le_compat_r; lra. }
  assert (HX2 : w * t <= 2 * pow2 900).
  { apply Qle_trans with (2 * t).
    - apply Qmult_le_compat_r; lra.
    - rewrite !(Qmult_comm 2). apply Qmult_le_compat_r; lra. }
  assert (H901 : 2 * pow2 900 == pow2 901) by (rewrite <- pow2_succ; reflexivity).
  assert (H902 : 2 * pow2 901 == pow2 902) by (rewrite <- pow2_succ; reflexivity).
  assert (H901' : pow2 901 <= pow2 1020) by (apply pow2_le; lia).
  assert (Hm1000 : pow2 (-1000) <= 1 # 67108864)
    by (change (1 # 67108864) with (pow2 (-26)); apply pow2_le; lia).
  set (X := w * t) in *.
  destruct (b64_pos X) as (a & Ha & _ & _ & Hae); [lra|lra|].
  specialize (Hae ltac:(lra)). apply Qabs_Qle_condition in Hae.
  rewrite pow2_m53 in Hae. exists a. split; [exact Ha|]. lra.
Qed.

Lemma pct_cell_form r c :
  cell (matrix_pct df) r c = Fin 0
  \/ exists a, cell (matrix_pct df) r c = np_round 2 a.
Proof.
  unfold matrix_pct, with_forest_types. cbn [cell].
  destruct (bool_decide _); [right|by left]. by eexists.
Qed.

(** A cell of the percentage matrix is zero or at least [2^-7], and the
    area computed back from it is zero or in the normal range. *)
Lemma cell_cases l c :
  exists p a,
    cell (matrix_pct df) (written l) c = Fin p
    /\ value (matrix_filtered df) l c = Fin a
    /\ (p == 0 /\ a == 0 \/ 0 < p /\ pow2 (-1000) <= a <= pow2 902).
Proof.
  destruct (pct_range (written l) c) as (p & Hp & Hp0 & Hp1).
  assert (Hcases : p == 0 \/ pow2 (-7) <= p).
  { destruct (pct_cell_form (written l) c) as [H0|[a Ha]].
    - rewrite H0 in Hp. injection Hp as <-. by left.
    - rewrite Ha in Hp. by apply (np_round_2_range a). }
  rewrite filtered_value, Hp, total_fin.
  destruct Hcases as [Hz|Hpos].
  - exists p, 0. rewrite (back_area_zero p Hz). split; [done|]. split; [done|].
    left. by split.
  - destruct (back_area_pos p ltac:(by split)) as (a & Ha & Hab).
    exists p, a. split; [done|]. split; [done|]. right. split; [|done].
    pose proof (pow2_pos (-7)). lra.
Qed.

Lemma column_cells c :
  (fun l => value (matrix_filtered df) l c) <$> rows (matrix_filtered df)
  = Fin <$> column_areas df c.
Proof.
  unfold column_areas. rewrite <- list_fmap_compose. apply list_fmap_ext.
  intros i l _. destruct (cell_cases l c) as (p & a & _ & Ha & _).
  unfold compose. by rewrite Ha.
Qed.

Lemma column_areas_normal c :
  Forall (fun a => a == 0 \/ pow2 (-1000) <= a) (column_areas df c).
Proof.
  unfold column_areas. apply Forall_fmap, Forall_forall. intros l _. unfold compose.
  destruct (cell_cases l c) as (p & a & _ & Ha & [[_ Hz]|[_ [Hn _]]]);
    rewrite Ha; cbn [fl_val]; [by left|by right].
Qed.

Lemma few_kept_rows :
  (Z.of_nat (length (rows (matrix_filtered df))) < 2 ^ 20)%Z.
Proof.
  rewrite filtered_rows, length_fmap.
  pose proof (length_filter (fun r => r ∉ rows_to_remove) (index (matrix_pct df))).
  lia.
Qed.

Lemma Qsum_le_length (l : list Q) (M : Q) :
  Forall (fun a => a <= M) l -> Qsum l <= inject_Z (Z.of_nat (length l)) * M.
Proof.
  induction 1 as [|a l Ha _ IH].
  - change (Qsum []) with 0.
    change (inject_Z (Z.of_nat (length (@nil Q)))) with 0. lra.
  - rewrite Qsum_cons. cbn [length].
    rewrite Nat2Z.inj_succ, <- Z.add_1_r, inject_Z_plus.
    change (inject_Z 1) with 1. lra.
Qed.

Lemma column_areas_bounded c : Qsum (column_areas df c) <= pow2 1000.
Proof.
  assert (Hb : Forall (fun a => a <= pow2 902) (column_areas df c)).
  { unfold column_areas. apply Forall_fmap, Forall_forall. intros l _. unfold compose.
    destruct (cell_cases l c) as (p & a & _ & Ha & [[_ Hz]|[_ [_ Hn]]]);
      rewrite Ha; cbn [fl_val]; [|done].
    pose proof (pow2_pos 902). lra. }
  apply Qsum_le_length in Hb.
  assert (Hn : (Z.of_nat (length (column_areas df c)) < 2 ^ 20)%Z).
  { unfold column_areas. rewrite length_fmap. apply few_kept_rows. }
  destruct (nat_below_2_20 _ Hn) as [Hn0 Hn1].
  pose proof (pow2_pos 902) as H902.
  assert (Hp : inject_Z (Z.of_nat (length (column_areas df c))) * pow2 902
               <= 1048576 * pow2 902) by (apply Qmult_le_compat_r; lra).
  assert (H922 : 1048576 * pow2 902 == pow2 922).
  { change 1048576 with (pow2 20). rewrite <- pow2_plus. reflexivity. }
  assert (pow2 922 <= pow2 1000) by (apply pow2_le; lia).
  lra.
Qed.

(** The sum of a column of areas is finite and close to the exact sum. *)
Lemma column_sum_close c :
  exists s, column_sum (matrix_filtered df) c = Fin s
    /\ Qabs (s - Qsum (column_areas df c))
       <= inject_Z (Z.of_nat (length (rows (matrix_filtered df)))) * pow2 (-52)
          * Qsum (column_areas df c).
Proof.
  unfold column_sum. rewrite column_cells.
  destruct (frame_sum_accurate (column_areas df c)) as (s & Hs & He).
  - apply column_areas_normal.
  - unfold column_areas. rewrite length_fmap. apply few_kept_rows.
  - apply column_areas_bounded.
  - exists s. split; [exact Hs|]. unfold column_areas in He at 2.
    by rewrite length_fmap in He.
Qed.

Lemma column_areas_sum c :
  Qsum (column_areas df c)
  = Qsum_over (fun l => fl_val (value (matrix_filtered df) l c))
              (rows (matrix_filtered df)).
Proof. reflexivity. Qed.

Lemma area_nonneg l c : 0 <= fl_val (value (matrix_filtered df) l c).
Proof.
  pose proof (pow2_pos (-1000)).
  destruct (cell_cases l c) as (p & a & _ & Ha & [[_ Hz]|[_ [Hn _]]]);
    rewrite Ha; cbn [fl_val]; lra.
Qed.

(** The cell of a column whose sum is zero: 0/0 is NaN, which
    [fillna(0)] replaces. *)
Lemma prob_value_zero l c a s :
  value (matrix_filtered df) l c = Fin a -> a == 0 ->
  column_sum (matrix_filtered df) c = Fin s -> s == 0 ->
  value (matrix_prob df) l c = Fin 0.
Proof.
  intros Ha Hz Hs Hsz. rewrite prob_value, Ha, Hs.
  unfold f64_div, fl_div. rewrite !Qeq_bool_true by done.
  cbn [round64 fillna0]. by apply np_round_zero.
Qed.

(** The cell of a column whose sum is positive. *)
Lemma prob_value_pos l c a s :
  value (matrix_filtered df) l c = Fin a -> 0 <= a -> a <= 2 * s ->
  column_sum (matrix_filtered df) c = Fin s -> 0 < s ->
  exists p, value (matrix_prob df) l c = Fin p
            /\ Qabs (p - a / s) <= (1 # 20000) + pow2 (-48).
Proof.
  intros Ha Ha0 Ha2 Hs Hs0. rewrite prob_value, Ha, Hs.
  assert (Hc : pow2 (-48) = 1 # 281474976710656) by reflexivity.
  rewrite f64_div_fin by lra.
  destruct (Qeq_dec a 0) as [Hz|Hnz].
  - assert (Hq : a / s == 0) by (rewrite Hz; field; lra).
    rewrite (b64_zero _ Hq). cbn [fillna0]. rewrite (np_round_zero 4 0) by reflexivity.
    exists 0. split; [reflexivity|]. rewrite Hq, Hc.
    apply Qabs_Qle_condition. lra.
  - assert (Hq0 : 0 < a / s) by (apply Qlt_shift_div_l; lra).
    assert (Hq2 : a / s <= 2) by (apply Qle_shift_div_r; lra).
    assert (H1020 : 2 <= pow2 1020)
      by (change 2 with (pow2 1); apply pow2_le; lia).
    destruct (b64_pos (a / s)) as (q & Hq & Hqpos & Hqe & _); [lra|lra|].
    rewrite Hq. cbn [fillna0].
    apply Qabs_Qle_condition in Hqe. rewrite pow2_m53 in Hqe.
    pose proof eta_small as Heta.
    destruct (np_round_4 q) as (p & Hp & _ & Hpe); [lra|].
    exists p. split; [exact Hp|].
    apply Qabs_Qle_condition in Hpe.
    change (pow2 (-49)) with (1 # 562949953421312) in Hpe.
    rewrite Hc. apply Qabs_Qle_condition. lra.
Qed.

Lemma column_result c :
  exists s,
    column_sum (matrix_filtered df) c = Fin s /\ 0 <= s
    /\ (s == 0 <-> forall l, l ∈ rows (matrix_prob df) ->
                     exists p, cell (matrix_pct df) (written l) c = Fin p /\ p == 0)
    /\ (s == 0 -> forall l, l ∈ rows (matrix_prob df) ->
                    value (matrix_prob df) l c = Fin 0)
    /\ (0 < s ->
         (forall l, l ∈ rows (matrix_prob df) ->
            exists a p, value (matrix_filtered df) l c = Fin a
                        /\ value (matrix_prob df) l c = Fin p
                        /\ Qabs (p - a / s) <= tolerance)
         /\ Qabs (Qsum ((fun l => fl_val (value (matrix_prob df) l c))
                          <$> rows (matrix_prob df)) - 1)
            <= inject_Z (Z.of_nat (length (rows (matrix_prob df)))) * tolerance).
Proof.
  rewrite prob_rows.
  destruct (column_sum_close c) as (s & Hs & He).
  rewrite column_areas_sum in He.
  set (R := rows (matrix_filtered df)) in *.
  set (A := fun l => fl_val (value (matrix_filtered df) l c)) in *.
  set (T := Qsum_over A R) in *.
  destruct (nat_below_2_20 _ few_kept_rows) as [HN0 HN1]. fold R in HN0, HN1.
  set (N := inject_Z (Z.of_nat (length R))) in *.
  change (pow2 (-52)) with (1 # 4503599627370496) in He.
  assert (HA : forall l, l ∈ R -> 0 <= A l) by (intros l _; apply area_nonneg).
  assert (HT : 0 <= T) by (by apply Qsum_over_nonneg).
  assert (HNT : 0 <= N * T) by (apply Qmult_le_0_compat; lra).
  assert (HNT' : N * T <= 1048576 * T) by (apply Qmult_le_compat_r; lra).
  apply Qabs_Qle_condition in He.
  assert (He' : N * (1 # 4503599627370496) * T == N * T * (1 # 4503599627370496))
    by ring.
  rewrite He' in He.
  assert (Hzero : s == 0 <-> forall l, l ∈ R -> A l == 0).
  { split.
    - intros Hz. apply Qsum_over_zero_inv; [exact HA|]. fold T. lra.
    - intros Hall. assert (T == 0) by (by apply Qsum_over_zero). lra. }
  assert (Hcell : forall l, A l == 0 <->
            exists p, cell (matrix_pct df) (written l) c = Fin p /\ p == 0).
  { intros l. unfold A. pose proof (pow2_pos (-1000)).
    destruct (cell_cases l c) as (p & a & Hp & Ha & [[Hpz Hz]|[Hpp [Hn _]]]);
      rewrite Ha; cbn [fl_val]; split.
    - intros _. by exists p.
    - done.
    - lra.
    - intros (p' & Hp' & Hz'). rewrite Hp in Hp'. injection Hp' as <-. lra. }
  exists s. split; [exact Hs|]. split; [lra|]. split; [|split].
  - rewrite Hzero. split; intros H l Hl; apply Hcell; by apply H.
  - intros Hz l Hl. destruct (cell_cases l c) as (p & a & _ & Ha & _).
    apply (prob_value_zero l c a s); try done.
    pose proof (proj1 Hzero Hz l Hl) as HAl. unfold A in HAl.
    by rewrite Ha in HAl.
  - intros Hpos.
    assert (HT2 : T <= 2 * s) by lra.
    assert (Hcells : forall l, l ∈ R ->
              exists p, value (matrix_prob df) l c = Fin p
                        /\ Qabs (p - A l / s) <= (1 # 20000) + pow2 (-48)).
    { intros l Hl. destruct (cell_cases l c) as (p & a & _ & Ha & _).
      pose proof (HA l Hl) as Ha0.
      pose proof (Qsum_over_elem_le A R l HA Hl) as Hle. fold T in Hle.
      unfold A in Ha0, Hle |- *. rewrite Ha in Ha0, Hle |- *. cbn [fl_val] in *.
      apply (prob_value_pos l c a s); try done. lra. }
    split.
    + intros l Hl. destruct (cell_cases l c) as (p0 & a & _ & Ha & _).
      destruct (Hcells l Hl) as (p & Hp & Hpe).
      exists a, p. split; [done|]. split; [done|].
      unfold A in Hpe. rewrite Ha in Hpe. cbn [fl_val] in Hpe.
      change (pow2 (-48)) with (1 # 281474976710656) in Hpe.
      apply Qabs_Qle_condition in Hpe. apply Qabs_Qle_condition.
      unfold tolerance. lra.
    + change (Qsum ((fun l => fl_val (value (matrix_prob df) l c)) <$> R))
        with (Qsum_over (fun l => fl_val (value (matrix_prob df) l c)) R).
      pose proof (Qsum_over_close
                    (fun l => fl_val (value (matrix_prob df) l c))
                    (fun l => A l * / s) ((1 # 20000) + pow2 (-48)) R) as Hclose.
      rewrite Qsum_over_scale in Hclose. fold T N in Hclose.
      change (pow2 (-48)) with (1 # 281474976710656) in Hclose.
      assert (Hc : T * / s - N * ((1 # 20000) + (1 # 281474976710656))
                   <= Qsum_over (fun l => fl_val (value (matrix_prob df) l c)) R
                   <= T * / s + N * ((1 # 20000) + (1 # 281474976710656))).
      { apply Hclose. intros l Hl. destruct (Hcells l Hl) as (p & Hp & Hpe).
        rewrite Hp. cbn [fl_val].
        change (pow2 (-48)) with (1 # 281474976710656) in Hpe.
        apply Qabs_Qle_condition in Hpe. unfold Qdiv in Hpe. lra. }
      assert (HNs : N * T <= N * (2 * s))
        by (rewrite !(Qmult_comm N); apply Qmult_le_compat_r; lra).
      assert (Hr1 : T * / s <= 1 + N * (1 # 1125899906842624)).
      { apply Qle_shift_div_r; [exact Hpos|].
        assert (Hx : (1 + N * (1 # 1125899906842624)) * s
                     == s + N * (2 * s) * (1 # 2251799813685248)) by ring.
        rewrite Hx. lra. }
      assert (Hr2 : 1 - N * (1 # 1125899906842624) <= T * / s).
      { apply Qle_shift_div_l; [exact Hpos|].
        assert (0 <= N * s) by (apply Qmult_le_0_compat; lra).
        assert (Hx : (1 - N * (1 # 1125899906842624)) * s
                     == s - N * s * (1 # 1125899906842624)) by ring.
        rewrite Hx. lra. }
      apply Qabs_Qle_condition. unfold tolerance. lra.
Qed.

End Step9.

Section ProbabilityMatrix64.
Context {P : Pandas}.
Import Aggregator Binary64 Reference Matrices.
Open Scope Q_scope.

Lemma few_rows_of_records (df : list Obs) :
  (Z.of_nat (length df) < 2 ^ 20)%Z ->
  (Z.of_nat (length (index (matrix_pct df))) < 2 ^ 20)%Z.
Proof.
  intros H. cbn [matrix_pct with_forest_types index frame_map matrix].
  pose proof (length_sorted_labels_le (omap obs_cuttype (filter has_cuttype df))).
  pose proof (length_omap_le obs_cuttype (filter has_cuttype df)).
  pose proof (length_filter has_cuttype df). lia.
Qed.


End ProbabilityMatrix64.

Lemma sample_keeps_row_names : @Reference.keeps_row_names Samples.pandas.
Proof.
  intros labels name Hname Hin. cbn [keeps_text Samples.pandas].
  unfold Samples.sample_keeps_text.
  assert (Hna : (name ∉ Samples.na_values) /\ Samples.digits_only name = false).
  { unfold Aggregator.rows_to_remove in Hname.
    apply elem_of_cons in Hname as [->|Hname];
      [|apply list_elem_of_singleton in Hname as ->];
      (split; [(apply (bool_decide_unpack _); vm_compute; exact I)|reflexivity]). }
  destruct Hna as [Hna Hd]. rewrite bool_decide_eq_false_2 by exact Hna.
  destruct (forallb _ _) eqn:Hall; [exfalso|reflexivity].
  rewrite forallb_forall in Hall.
  assert (Hdigits : Samples.digits_only name = true); [|congruence].
  apply Hall, list_elem_of_In, list_elem_of_filter. by split.
Qed.

Lemma three_cuts_areas :
  forall o, o ∈ Samples.three_cuts -> (1 <= Aggregator.obs_area o)%Q.
Proof. apply Forall_forall. repeat constructor; vm_compute; discriminate. Qed.

Lemma three_cuts_total :
  (Aggregator.Qsum (Aggregator.obs_area <$> Samples.three_cuts) <= Binary64.pow2 890)%Q.
Proof.
  apply Qle_trans with (Binary64.pow2 14); [vm_compute; discriminate|].
  apply pow2_le. lia.
Qed.



(** The rounding of [Binary64] on the operations of the Standard
    Library's specification of IEEE 754 binary64: a quotient, a product,
    a sum, and the divisions by zero. *)
Example binary64_as_specified :
  Binary64.of_spec_float
    (SpecFloat.SFdiv 53 1024 (Binary64.spec_of_Z 109) (Binary64.spec_of_Z 800))
  = Binary64.f64_div (Aggregator.Fin 109) (Aggregator.Fin 800)
  /\ Binary64.of_spec_float
       (SpecFloat.SFmul 53 1024
          (SpecFloat.SFdiv 53 1024 (Binary64.spec_of_Z 109) (Binary64.spec_of_Z 800))
          (Binary64.spec_of_Z 100))
     = Binary64.f64_mul (Binary64.f64_div (Aggregator.Fin 109) (Aggregator.Fin 800))
                        (Aggregator.Fin 100)
  /\ Binary64.of_spec_float
       (SpecFloat.SFadd 53 1024
          (SpecFloat.SFdiv 53 1024 (Binary64.spec_of_Z 972) (Binary64.spec_of_Z 10))
          (SpecFloat.SFdiv 53 1024 (Binary64.spec_of_Z 409452) (Binary64.spec_of_Z 10)))
     = Binary64.f64_add (Binary64.b64 (972 # 10)) (Binary64.b64 (409452 # 10))
  /\ Binary64.of_spec_float
       (SpecFloat.SFdiv 53 1024 (Binary64.spec_of_Z 1) (Binary64.spec_of_Z 0))
     = Binary64.f64_div (Aggregator.Fin 1) (Aggregator.Fin 0)
  /\ Binary64.of_spec_float
       (SpecFloat.SFdiv 53 1024 (Binary64.spec_of_Z 0) (Binary64.spec_of_Z 0))
     = Binary64.f64_div (Aggregator.Fin 0) (Aggregator.Fin 0).
Proof. vm_compute. repeat split. Qed.

(** Areas 109 and 691 in one forest type: the first percentage is
    13.625000000000002 before rounding and 13.63 after, where exact
    arithmetic rounds the tie 13.625 to 13.62. *)
Example percentage_of_a_tie :
  Aggregator.cell
    (Matrices.matrix_pct [Samples.obs "Clearcut" "Even/Tol" 109;
                          Samples.obs "Partial cut" "Even/Tol" 691])
    "Clearcut" "Even/Tol"
  = Binary64.b64 (1363 # 100)
  /\ Aggregator.cell
       (Aggregator.matrix_pct [Samples.obs "Clearcut" "Even/Tol" 109;
                               Samples.obs "Partial cut" "Even/Tol" 691])
       "Clearcut" "Even/Tol"
     = Aggregator.Fin (1362 # 100).
Proof. vm_compute. repeat split. Qed.

(** Areas 3 and 157 in one forest type: the first probability is 0.0187;
    with every area multiplied by 3 it is 0.0188. *)
Example probability_depends_on_the_unit :
  Matrices.value (Matrices.matrix_prob Samples.three_cuts)
    (Matrices.Text "Clearcut") "Even/Tol"
  = Binary64.b64 (187 # 10000)
  /\ Matrices.value
       (Matrices.matrix_prob
          [Samples.obs "Clearcut" "Even/Tol" 9; Samples.obs "Partial cut" "Even/Tol" 471;
           Samples.obs "Commercial thinning" "Uneven/Tol" 29520])
       (Matrices.Text "Clearcut") "Even/Tol"
     = Binary64.b64 (188 # 10000).
Proof. vm_compute. repeat split. Qed.

(** * Further properties of the script *)

(** ** Forest types *)

Section ForestTypes.
Import Aggregator Reference.

Lemma classify_forest_type_range a g : classify_forest_type a g ∈ forest_types.
Proof.
  unfold classify_forest_type, forest_types.
  destruct a as [a|], g as [g|];
    repeat match goal with |- context [if ?b then _ else _] => destruct b end;
    set_solver.
Qed.

Lemma shade_values dict g :
  classify_shade_tolerance dict g = None /\ g = None
  \/ g <> None /\ (classify_shade_tolerance dict g = Some "Tol"
                   \/ classify_shade_tolerance dict g = Some "Intol"
                   \/ classify_shade_tolerance dict g = Some "Unknown").
Proof.
  destruct g as [g|]; [right; split; [done|]|by left].
  unfold classify_shade_tolerance.
  destruct (dict !! prefix2 g) as [e|]; [|by right; right].
  destruct (tolerance_cases (default "Unknown" (e !! "tolerance_ombre")))
    as [[_ ->]|[(_ & -> & ->)|(_ & _ & -> & ->)]]; auto.
Qed.

(** X1. The forest type of a stand, from its raw codes: it is
    Unknown/Unclassified exactly when the age class is null, the species
    group is null or its shade tolerance is Unknown; otherwise it is Even or
    Uneven, by whether the age class is one of the fourteen listed, joined
    to Tol or Intol. The last branch of [classify_forest_type] is never
    taken on the values the overlay stores. *)
Theorem forest_type_of_codes (dict : table) (cl_age gr_ess : option string) :
  let ft := classify_forest_type (reclassify_cl_age cl_age)
              (classify_shade_tolerance dict gr_ess) in
  (ft = "Unknown/Unclassified"
   <-> cl_age = None \/ gr_ess = None
       \/ classify_shade_tolerance dict gr_ess = Some "Unknown")
  /\ (forall code, cl_age = Some code ->
        classify_shade_tolerance dict gr_ess = Some "Tol" ->
        ft = if bool_decide (code ∈ age_classes) then "Even/Tol" else "Uneven/Tol")
  /\ (forall code, cl_age = Some code ->
        classify_shade_tolerance dict gr_ess = Some "Intol" ->
        ft = if bool_decide (code ∈ age_classes) then "Even/Intol" else "Uneven/Intol").
Proof.
  cbv zeta. split; [|split].
  - destruct cl_age as [code|]; [|split; [by left|done]].
    destruct (shade_values dict gr_ess) as [[Hs ->]|[Hg [Hs|[Hs|Hs]]]]; rewrite ?Hs.
    + unfold reclassify_cl_age. destruct (bool_decide _); simpl;
        (split; [by right; left|done]).
    + split; [|intros [H|[H|H]]; congruence].
      unfold reclassify_cl_age. by destruct (bool_decide _).
    + split; [|intros [H|[H|H]]; congruence].
      unfold reclassify_cl_age. by destruct (bool_decide _).
    + split; [by right; right|]. intros _.
      unfold reclassify_cl_age. by destruct (bool_decide _).
  - intros code -> Hs. rewrite Hs. unfold reclassify_cl_age.
    by destruct (bool_decide _).
  - intros code -> Hs. rewrite Hs. unfold reclassify_cl_age.
    by destruct (bool_decide _).
Qed.

Lemma forest_type_of_codes_witness :
  classify_forest_type (reclassify_cl_age (Some "150"))
    (classify_shade_tolerance Samples.shade_table (Some "PEUP")) = "Uneven/Intol".
Proof.
  apply (proj2 (proj2 (forest_type_of_codes Samples.shade_table (Some "150") (Some "PEUP")))
           "150"); reflexivity.
Defined.

End ForestTypes.

(** ** More on the overlay loop *)

Section OverlayCoverage.
Context {E : GeometryEngine}.
Import Overlay Reference Coverage.

Lemma str_or_none_id v : str_or_none v = v.
Proof. by destruct v. Qed.

Lemma feature_out_attrs p row a g c :
  attrs (feature_out p row a g c) = interv_attrs row /\ CO_TER (feature_out p row a g c) = c.
Proof.
  unfold feature_out. cbn [attrs CO_TER]. rewrite !str_or_none_id.
  by destruct (interv_attrs row).
Qed.

Lemma for_each_app {A S} (body : A -> S -> outcome S) xs ys (s : S) :
  for_each body (xs ++ ys) s = for_each body xs s >>> for_each body ys.
Proof.
  revert s. induction xs as [|x xs IH]; intros s; [reflexivity|].
  cbn [for_each app]. destruct (body x s) as [s'|e s']; cbn [and_then]; [apply IH|done].
Qed.

Lemma reaches_for_each_in {A} P (body : A -> LoopState -> outcome LoopState) xs st :
  (forall x s, x ∈ xs -> reaches P s (state_of (body x s))) ->
  reaches P st (state_of (for_each body xs st)).
Proof.
  revert st. induction xs as [|x xs IH]; intros st Hbody; simpl.
  - apply reaches_refl.
  - pose proof (Hbody x st ltac:(constructor)) as Hx.
    destruct (body x st) as [s|e s]; simpl in *; [|exact Hx].
    eapply reaches_trans; [exact Hx|]. apply IH.
    intros y s' Hy. apply Hbody. by constructor.
Qed.

Lemma reaches_weaken (P Q : Fragment -> Prop) st st' :
  (forall fo, P fo -> Q fo) -> reaches P st st' -> reaches Q st st'.
Proof.
  intros HPQ (l & -> & Hl). exists l. split; [done|].
  eapply Forall_impl; [exact Hl|exact HPQ].
Qed.

Lemma reaches_from_pair shade rows geoms src :
  reaches (from_pair shade rows geoms src) init_state
    (state_of (overlay_loop shade (Some rows) (Some geoms) src)).
Proof.
  unfold overlay_loop. apply reaches_for_each_in. intros f s Hf.
  unfold feature_body.
  destruct (shape (feat_geometry f)) as [pee|] eqn:Hshape; [|apply reaches_refl].
  destruct (_ =? _)%nat; [apply reaches_refl|].
  apply reaches_for_each_in. intros idx s' Hidx. unfold candidate_body.
  destruct (geoms !! idx) as [h|] eqn:Hh; [|apply reaches_refl].
  destruct (_ || _) eqn:Hskip; [apply reaches_refl|].
  apply skip_test in Hskip.
  destruct (rows !! idx) as [row|] eqn:Hrow; [|apply reaches_refl].
  rewrite poly_loop. simpl. eexists. split; [reflexivity|].
  apply Forall_fmap, Forall_forall. intros p Hp.
  apply list_elem_of_filter in Hp as [Hbig Hp].
  by exists f, pee, idx, row, h, p.
Qed.

(** X2. Every record in the file when the overlay closes it was built at
    line 170 for a part, of area at least 1, of the non-empty intersection,
    of area at least 1, of a stand of the inventory with the intervention
    at a position that the index answered for that stand; it carries that
    intervention's eight attributes unchanged, the stand's terrain code
    unchanged and the stand's two reclassified codes. *)
Theorem records_come_from_pairs shade rows geoms src fo :
  fo ∈ records_at_close (overlay_loop shade (Some rows) (Some geoms) src) ->
  from_pair shade rows geoms src fo
  /\ exists row f,
       row ∈ rows /\ f ∈ src
       /\ attrs fo = interv_attrs row
       /\ CL_AGE fo = reclassify_cl_age (feat_CL_AGE f)
       /\ GR_ESS fo = classify_shade_tolerance shade (feat_GR_ESS f)
       /\ CO_TER fo = feat_CO_TER f.
Proof.
  intros Hfo. apply records_at_close_accepted in Hfo.
  destruct (reaches_from_pair shade rows geoms src) as (l & Hl & HP).
  rewrite Hl, accepted_accept_all in Hfo. simpl in Hfo.
  rewrite Forall_forall in HP. specialize (HP fo Hfo). split; [exact HP|].
  destruct HP as (f & pee & idx & row & h & p & Hf & _ & _ & Hrow & _ & _ & _ & _ & ->).
  exists row, f. split; [by eapply list_elem_of_lookup_2|]. split; [done|].
  destruct (feature_out_attrs p row (reclassify_cl_age (feat_CL_AGE f))
              (classify_shade_tolerance shade (feat_GR_ESS f)) (feat_CO_TER f))
    as [Ha Hc].
  by repeat split.
Qed.

Lemma overlay_in_order shade rows src :
  answers_in_range rows src ->
  overlay_loop shade (Some rows) (Some (interv_geometry <$> rows)) src
  = Done (accept_all (fragments_in_order shade rows src) init_state).
Proof.
  intros Hsrc. unfold overlay_loop, fragments_in_order.
  apply for_each_accept_all. intros f s Hf.
  destruct (Hsrc f Hf) as (pee & Hshape & Hrange).
  rewrite Hshape. by apply feature_in_range.
Qed.

Lemma answers_in_range_app rows src1 src2 :
  answers_in_range rows (src1 ++ src2) ->
  answers_in_range rows src1 /\ answers_in_range rows src2.
Proof.
  intros H. split; intros f Hf; apply H, elem_of_app; [by left|by right].
Qed.

(** X3. When every stand decodes and the index answers with positions of
    the intervention layer, the overlay ends normally and the file holds
    the records stand after stand in the order of the inventory and, for
    each stand, in the order of the index's answer; so the file of two
    inventories put end to end is the file of the first followed by the
    file of the second, wherever the buffer was flushed. *)
Theorem overlay_writes_in_order shade rows src1 src2 :
  answers_in_range rows (src1 ++ src2) ->
  let run src := records_at_close
                   (overlay_loop shade (Some rows) (Some (interv_geometry <$> rows)) src) in
  run (src1 ++ src2) = fragments_in_order shade rows (src1 ++ src2)
  /\ run (src1 ++ src2) = run src1 ++ run src2.
Proof.
  intros H. destruct (answers_in_range_app _ _ _ H) as [H1 H2]. cbv beta zeta.
  rewrite !overlay_in_order by done. cbn [records_at_close].
  rewrite !final_flush_accepted, !accepted_accept_all. cbn [accepted init_state app].
  split; [reflexivity|]. unfold fragments_in_order. apply bind_app.
Qed.

Lemma aligned_accept fo st : aligned_state st -> aligned_state (accept fo st).
Proof.
  intros [Hcap (k & Hk & Hdst)]. split; [by apply below_cap_accept|].
  unfold below_cap in Hcap. unfold accept, flush_if_full, BUFFER_SIZE in *; simpl.
  rewrite length_app; simpl.
  destruct (Z.leb_spec 5000 (Z.of_nat (length (buffer st) + 1))); simpl.
  - exists (k + 1). rewrite !length_app; simpl. lia.
  - exists k. by split.
Qed.

Lemma aligned_accept_all l st : aligned_state st -> aligned_state (accept_all l st).
Proof.
  revert st. induction l as [|fo l IH]; intros st Hst; [exact Hst|].
  apply (IH (accept fo st)), aligned_accept, Hst.
Qed.

Lemma aligned_init : aligned_state init_state.
Proof.
  split; [unfold below_cap, BUFFER_SIZE; simpl; lia|].
  exists 0. split; [lia|reflexivity].
Qed.

(** X4. Whatever the inputs and however the loop ends, the records handed
    to [writerecords] inside the loop come in full batches: the file holds
    BUFFER_SIZE * (count / BUFFER_SIZE) records and the buffer the other
    count mod BUFFER_SIZE. So when an exception ends the loop, the records
    in the file are the first accepted ones and fewer than BUFFER_SIZE
    accepted fragments are lost. *)
Theorem flushes_are_full shade gdf tree src :
  let o := overlay_loop shade gdf tree src in
  let st := state_of o in
  Z.of_nat (length (dst st)) = BUFFER_SIZE * (count st / BUFFER_SIZE)
  /\ Z.of_nat (length (buffer st)) = count st mod BUFFER_SIZE
  /\ records_at_close o `prefix_of` accepted st
  /\ Z.of_nat (length (accepted st)) - Z.of_nat (length (records_at_close o))
     < BUFFER_SIZE.
Proof.
  intros o st. destruct (overlay_state shade gdf tree src) as [Hst _].
  fold o in Hst. fold st in Hst.
  assert (Hal : aligned_state st) by (rewrite Hst; apply aligned_accept_all, aligned_init).
  assert (Hcount : count st = Z.of_nat (length (accepted st))).
  { rewrite Hst at 1. rewrite count_accept_all. simpl. lia. }
  destruct Hal as [Hcap (k & Hk & Hdst)]. unfold below_cap in Hcap.
  assert (Hlen : count st = BUFFER_SIZE * k + Z.of_nat (length (buffer st))).
  { rewrite Hcount. unfold accepted. rewrite length_app. lia. }
  assert (Hr : 0 <= Z.of_nat (length (buffer st)) < BUFFER_SIZE) by lia.
  split; [rewrite Hdst; f_equal; by eapply Zdiv_unique|].
  split; [by eapply Zmod_unique|].
  destruct o as [s|e s] eqn:Ho; subst st; cbn [state_of records_at_close] in *.
  - rewrite final_flush_accepted. split; [done|]. unfold BUFFER_SIZE. lia.
  - split; [by exists (buffer s)|]. unfold accepted. rewrite length_app. lia.
Qed.

(** X5. A stand whose geometry [shape] cannot decode ends the overlay with
    an exception: the stands before it have been processed, the stands
    after it are not, and the fragments still in the buffer are not
    written. *)
Theorem undecodable_stand_aborts shade gdf tree src1 bad src2 st :
  overlay_loop shade gdf tree src1 = Done st ->
  shape (feat_geometry bad) = None ->
  overlay_loop shade gdf tree (src1 ++ bad :: src2) = Raised GeometryError st
  /\ records_at_close (overlay_loop shade gdf tree (src1 ++ bad :: src2)) = dst st.
Proof.
  intros Hrun Hbad.
  assert (H : overlay_loop shade gdf tree (src1 ++ bad :: src2) = Raised GeometryError st).
  { unfold overlay_loop in *. rewrite for_each_app, Hrun. cbn [and_then for_each].
    unfold feature_body at 1. rewrite Hbad. reflexivity. }
  by rewrite H.
Qed.

Lemma for_each_same_state {A S} (body : A -> S -> outcome S) xs (s : S) :
  (forall x s', state_of (body x s') = s') -> state_of (for_each body xs s) = s.
Proof.
  intros Hbody. induction xs as [|x xs IH]; [reflexivity|].
  cbn [for_each]. specialize (Hbody x s).
  destruct (body x s) as [s'|e s']; cbn [and_then state_of] in *; by subst.
Qed.

(** With [interv_fores_gdf] unbound the loop never accepts a fragment. *)
Lemma unbound_gdf_writes_nothing shade tree src :
  state_of (overlay_loop shade None tree src) = init_state.
Proof.
  unfold overlay_loop. apply for_each_same_state. intros f s. unfold feature_body.
  destruct (shape _); [|done]. destruct tree as [geoms|]; [|done].
  destruct (_ =? _)%nat; [done|]. apply for_each_same_state. intros idx s'.
  unfold candidate_body. destruct (geoms !! idx); [|done]. by destruct (_ || _).
Qed.

End OverlayCoverage.

(** ** More on the runs of the script *)

Section ScriptCoverage.
Context {E : GeometryEngine} {P : Pandas}.
Import Overlay Aggregator Script Reference Coverage.

(** X6. The recovery branch (lines 78-212) entered with
    [interv_fores_gdf] bound and a corrupt file: the corrupt file is
    deleted, line 133 creates a new dataset, nothing is written to it
    because line 79 has deleted the variable that line 160 reads, and an
    exception ends the run. The corrupt file is replaced by a valid, empty
    dataset and no matrix is written. *)
Theorem recovery_leaves_empty_dataset inp env gdf :
  clipped_gpkg env = Corrupt ->
  interv_fores_gdf env = Some gdf ->
  exists e env',
    run_from_checkpoint inp env = Raised e env'
    /\ clipped_gpkg env' = Stored (Clipped [])
    /\ forest_cut_matrix_csv env' = forest_cut_matrix_csv env
    /\ forest_cut_matrix_probabilities_csv env'
       = forest_cut_matrix_probabilities_csv env.
Proof.
  intros Hfile Hgdf. unfold run_from_checkpoint, load_checkpoint.
  rewrite Hfile, Hgdf. cbn. rewrite Hfile. unfold overlay_phase. cbn -[overlay_loop].
  pose proof (unbound_gdf_writes_nothing (shade_tolerance inp) (interv_geoms env)
                (forest_inv_gdb inp)) as Hst.
  destruct (overlay_loop _ _ _ _) as [st|e st]; cbn in Hst; subst st; cbn;
    eexists; eexists; (split; [reflexivity|]); by cbn.
Qed.


End ScriptCoverage.

Lemma sample_answers_in_range :
  Coverage.answers_in_range Samples.cuts ([Samples.stand (Polygon (Boxes.square 0 0 2))]
                                          ++ [Samples.stand (Polygon (Boxes.square 10 10 2))]).
Proof.
  intros f Hf. destruct (sample_index_answers f Hf) as (pee & Hshape & _ & Hrange & _).
  by exists pee.
Qed.

Lemma records_come_from_pairs_witness :
  Coverage.from_pair Samples.shade_table Samples.cuts
    (Overlay.interv_geometry <$> Samples.cuts) Samples.stands Samples.first_fragment
  /\ exists row f,
       row ∈ Samples.cuts /\ f ∈ Samples.stands
       /\ Overlay.attrs Samples.first_fragment = Overlay.interv_attrs row
       /\ Overlay.CL_AGE Samples.first_fragment
          = reclassify_cl_age (Overlay.feat_CL_AGE f)
       /\ Overlay.GR_ESS Samples.first_fragment
          = classify_shade_tolerance Samples.shade_table (Overlay.feat_GR_ESS f)
       /\ Overlay.CO_TER Samples.first_fragment = Overlay.feat_CO_TER f.
Proof.
  apply (records_come_from_pairs Samples.shade_table Samples.cuts
           (Overlay.interv_geometry <$> Samples.cuts) Samples.stands Samples.first_fragment).
  vm_compute. constructor.
Defined.

Lemma overlay_writes_in_order_witness :
  Overlay.records_at_close
    (Overlay.overlay_loop Samples.shade_table (Some Samples.cuts)
       (Some (Overlay.interv_geometry <$> Samples.cuts))
       ([Samples.stand (Polygon (Boxes.square 0 0 2))]
        ++ [Samples.stand (Polygon (Boxes.square 10 10 2))]))
  = Coverage.fragments_in_order Samples.shade_table Samples.cuts
      ([Samples.stand (Polygon (Boxes.square 0 0 2))]
       ++ [Samples.stand (Polygon (Boxes.square 10 10 2))]).
Proof.
  exact (proj1 (overlay_writes_in_order Samples.shade_table Samples.cuts
                  [Samples.stand (Polygon (Boxes.square 0 0 2))]
                  [Samples.stand (Polygon (Boxes.square 10 10 2))]
                  sample_answers_in_range)).
Defined.

Lemma undecodable_stand_aborts_witness :
  Overlay.overlay_loop Samples.shade_table (Some Samples.cuts)
    (Some (Overlay.interv_geometry <$> Samples.cuts))
    (Samples.stands ++ Samples.null_stand :: Samples.stands)
  = Raised GeometryError
      (Reference.accept_all [Samples.first_fragment] Overlay.init_state).
Proof.
  apply (undecodable_stand_aborts Samples.shade_table (Some Samples.cuts)
           (Some (Overlay.interv_geometry <$> Samples.cuts))
           Samples.stands Samples.null_stand Samples.stands
           (Reference.accept_all [Samples.first_fragment] Overlay.init_state)).
  - vm_compute. reflexivity.
  - reflexivity.
Defined.

Lemma recovery_leaves_empty_dataset_witness :
  exists e env',
    Script.run_from_checkpoint Samples.inputs
      (Script.set_gdf (Some Samples.cuts) (Script.start Script.Corrupt)) = Raised e env'
    /\ Script.clipped_gpkg env' = Script.Stored (Script.Clipped [])
    /\ Script.forest_cut_matrix_csv env' = None
    /\ Script.forest_cut_matrix_probabilities_csv env' = None.
Proof.
  exact (recovery_leaves_empty_dataset Samples.inputs
           (Script.set_gdf (Some Samples.cuts) (Script.start Script.Corrupt))
           Samples.cuts eq_refl eq_refl).
Defined.

Lemma checkpoint_branch_idempotent_witness :
  exists env',
    Script.run_from_checkpoint Samples.inputs
      (Script.set_gdf (Some Samples.cuts)
         (Script.start (Script.Stored (Script.Final
            (Script.add_columns Samples.cut_table <$> [Samples.first_fragment])))))
    = Done env'
    /\ Script.clipped_gpkg env'
       = Script.Stored (Script.Final
           (Script.add_columns Samples.cut_table <$> [Samples.first_fragment])).
Proof.
  apply (proj1 (checkpoint_branch_idempotent Samples.inputs
                  (Script.set_gdf (Some Samples.cuts)
                     (Script.start (Script.Stored (Script.Final
                        (Script.add_columns Samples.cut_table
                           <$> [Samples.first_fragment])))))
                  Samples.cuts [Samples.first_fragment] eq_refl eq_refl)).
  discriminate.
Defined.

(** ** More on the two matrices *)

Section MatrixCoverage.
Import Aggregator Reference Coverage.
Open Scope Q_scope.

Lemma matrix_columns_elem (df : list Obs) c :
  c ∈ columns (matrix df)
  <-> exists o, o ∈ df /\ obs_cuttype o <> None /\ obs_forest_type o = c.
Proof.
  cbn [matrix columns]. rewrite sorted_labels_elem, list_elem_of_fmap. split.
  - intros (o & -> & Ho). apply list_elem_of_filter in Ho as [Hh Ho]. by exists o.
  - intros (o & Ho & Hh & <-). exists o. split; [done|].
    apply list_elem_of_filter. by split.
Qed.

End MatrixCoverage.

Section MatrixColumns.
Context {E : GeometryEngine}.
Import Overlay Aggregator Script Reference Coverage.

(** X10. The percentage matrix has the five forest types as its columns,
    in their fixed order, whatever the rows; every column of the area
    matrix of stored rows is one of the five, so the selection of line 276
    drops none; and a forest type that no row with a cut type has is a
    column of zeros. *)
Theorem percentage_matrix_columns (rows : list Row) :
  let df := to_obs <$> rows in
  columns (matrix_pct df) = forest_types
  /\ (forall c, c ∈ columns (matrix df) -> c ∈ forest_types)
  /\ (forall r c,
        (forall row, row ∈ rows -> CUTTYPE row <> None ->
           classify_forest_type (CL_AGE (frag row)) (GR_ESS (frag row)) <> c) ->
        cell (matrix_pct df) r c = Fin 0).
Proof.
  cbv zeta. split; [reflexivity|]. split.
  - intros c Hc. apply matrix_columns_elem in Hc as (o & Ho & _ & <-).
    apply list_elem_of_fmap in Ho as (row & -> & _). apply classify_forest_type_range.
  - intros r c Hnone. unfold matrix_pct, with_forest_types. cbn [cell].
    rewrite bool_decide_eq_false_2; [reflexivity|].
    intros Hc. apply matrix_columns_elem in Hc as (o & Ho & Hh & Hft).
    apply list_elem_of_fmap in Ho as (row & -> & Hrow).
    by apply (Hnone row Hrow).
Qed.

End MatrixColumns.

(** ** Bounds on the cells *)

Section RoundingBounds.
Import Aggregator Reference.
Open Scope Q_scope.

Lemma round_dec_4_le_1 q : q <= 1 -> round_dec 4 q <= 1.
Proof.
  intros Hq. rewrite round_dec_4.
  assert (H : (rint (q * 10000) <= 10000)%Z).
  { apply rint_le_integer. change (inject_Z 10000) with 10000. lra. }
  rewrite Zle_Qle in H. change (inject_Z 10000) with 10000 in H. lra.
Qed.

End RoundingBounds.

(** ** The probability matrix in exact arithmetic *)

Section ProbabilityMatrix.
Import Aggregator Reference.
Open Scope Q_scope.

Variable df : list Obs.
Hypothesis areas_nonneg : forall o, o ∈ df -> 0 <= obs_area o.
Hypothesis total_pos : 0 < total_area df.

Lemma group_sum_nonneg r c : 0 <= group_sum df r c.
Proof.
  apply Qsum_over_nonneg. intros o Ho.
  apply list_elem_of_filter in Ho as [_ Ho]. by apply areas_nonneg.
Qed.

Lemma pct_cell r c :
  cell (matrix_pct df) r c = Fin (pct_value df r c) /\ 0 <= pct_value df r c.
Proof.
  assert (Hin : cell (frame_map (fl_round 2) (matrix_pct_exact df)) r c
                = Fin (round_dec 2 (group_sum df r c / total_area df * 100))).
  { change (cell (frame_map (fl_round 2) (matrix_pct_exact df)) r c)
      with (fl_round 2 (cell (matrix_pct_exact df) r c)).
    rewrite pct_exact_cell by lra. reflexivity. }
  unfold pct_value, matrix_pct, with_forest_types. cbn [cell].
  destruct (bool_decide _); [|split; [reflexivity|apply Qle_refl]].
  rewrite Hin. cbn [fl_val]. split; [reflexivity|].
  apply round_dec_nonneg. pose proof (group_sum_nonneg r c).
  apply Qmult_le_0_compat; [|lra]. apply Qle_shift_div_l; lra.
Qed.

Lemma filtered_index : index (matrix_filtered df) = kept_rows df.
Proof.
  unfold kept_rows, matrix_filtered, rows_to_remove. cbn [foldl drop_row index].
  change (index (drop_column _ _)) with (index (matrix_pct df)).
  induction (index (matrix_pct df)) as [|r rs IH]; [reflexivity|].
  destruct (decide (r = "Commercial thinning")) as [->|H1].
  - rewrite (filter_cons_False _ "Commercial thinning" rs) by (intros H; by apply H).
    rewrite (filter_cons_False (fun r => r ∉ _)); [exact IH|].
    intros H. apply H. constructor.
  - rewrite (filter_cons_True _ r rs) by done.
    destruct (decide (r = "Others")) as [->|H2].
    + rewrite (filter_cons_False _ "Others") by (intros H; by apply H).
      rewrite (filter_cons_False (fun r => r ∉ _)); [exact IH|].
      intros H. apply H. right. constructor.
    + rewrite (filter_cons_True _ r) by done.
      rewrite (filter_cons_True (fun r => r ∉ _)); [by rewrite IH|].
      intros H. apply elem_of_cons in H as [->|H]; [done|].
      apply list_elem_of_singleton in H. done.
Qed.

Lemma filtered_cell r c :
  cell (matrix_filtered df) r c = Fin (pct_value df r c / 100 * total_area df).
Proof.
  change (cell (matrix_filtered df) r c)
    with (fl_mul (fl_div (cell (matrix_pct df) r c) (Fin 100)) (Fin (total_area df))).
  rewrite (proj1 (pct_cell r c)). reflexivity.
Qed.

Lemma fl_sum_fin {A} (f : A -> Q) (l : list A) :
  fl_sum ((fun x => Fin (f x)) <$> l) = Fin (Qsum_over f l).
Proof.
  unfold fl_sum. induction l as [|x l IH]; [reflexivity|].
  rewrite fmap_cons, filter_cons_True by reflexivity.
  cbn [foldr]. rewrite IH. reflexivity.
Qed.

Lemma filtered_col_sum c :
  col_sum (matrix_filtered df) c
  = Fin (Qsum_over (fun r => pct_value df r c / 100 * total_area df) (kept_rows df)).
Proof.
  unfold col_sum. rewrite filtered_index.
  rewrite (list_fmap_ext _ (fun r => Fin (pct_value df r c / 100 * total_area df)))
    by (intros; apply filtered_cell).
  apply fl_sum_fin.
Qed.

Lemma filtered_col_sum_value c :
  Qsum_over (fun r => pct_value df r c / 100 * total_area df) (kept_rows df)
  == pct_column_sum df c * (total_area df / 100).
Proof.
  unfold pct_column_sum. rewrite <- Qsum_over_scale. apply Qsum_over_ext.
  intros r _. field.
Qed.

Lemma prob_cell r c :
  cell (matrix_prob df) r c
  = fl_round 4 (fillna0 (fl_div (Fin (pct_value df r c / 100 * total_area df))
                                (col_sum (matrix_filtered df) c))).
Proof.
  change (cell (matrix_prob df) r c)
    with (fl_round 4 (fillna0 (fl_div (cell (matrix_filtered df) r c)
                                      (col_sum (matrix_filtered df) c)))).
  by rewrite filtered_cell.
Qed.

(** A column whose rounded percentages sum to zero comes out as zeros. *)
Lemma prob_cell_zero_column r c :
  r ∈ kept_rows df -> pct_column_sum df c == 0 ->
  exists q, cell (matrix_prob df) r c = Fin q /\ q == 0.
Proof.
  intros Hr HS. rewrite prob_cell, filtered_col_sum. unfold fl_div.
  rewrite Qeq_bool_true by (rewrite filtered_col_sum_value, HS; ring).
  assert (Hp : pct_value df r c == 0).
  { apply (Qsum_over_zero_inv (fun r => pct_value df r c) (kept_rows df)); try done.
    intros x _. apply pct_cell. }
  rewrite Qeq_bool_true by (rewrite Hp; field).
  cbn [fillna0 fl_round]. eexists. split; [reflexivity|]. by apply round_dec_zero.
Qed.

(** Any other column is the column of rounded percentages divided by its
    sum, rounded to four decimals. *)
Lemma prob_cell_rescaled r c :
  ~ pct_column_sum df c == 0 ->
  cell (matrix_prob df) r c
  = Fin (round_dec 4 (pct_value df r c / pct_column_sum df c)).
Proof.
  intros HS. rewrite prob_cell, filtered_col_sum. unfold fl_div.
  rewrite Qeq_bool_false.
  - cbn [fillna0 fl_round]. f_equal. apply round_dec_comp.
    rewrite filtered_col_sum_value. field. split; first [exact HS|lra].
  - rewrite filtered_col_sum_value. intros H. apply HS.
    apply (Qmult_integral_l (total_area df / 100)); [|by rewrite Qmult_comm].
    intros H0.
    assert (total_area df == 0)
      by (rewrite <- (Qmult_div_r (total_area df) 100), H0 by lra; ring).
    lra.
Qed.

End ProbabilityMatrix.

Section MatrixBounds.
Import Aggregator Reference Coverage.
Open Scope Q_scope.

Variable df : list Obs.
Hypothesis areas_nonneg : forall o, o ∈ df -> 0 <= obs_area o.
Hypothesis total_pos : 0 < total_area df.


End MatrixBounds.

Lemma tiny_column_nonneg :
  forall o, o ∈ Samples.tiny_column -> (0 <= Aggregator.obs_area o)%Q.
Proof. apply Forall_forall. repeat constructor; vm_compute; discriminate. Qed.

Lemma tiny_column_total_pos : (0 < Aggregator.total_area Samples.tiny_column)%Q.
Proof. vm_compute. reflexivity. Qed.


(** ** The two scripts that derive a cut type *)

Section TwoScripts.

(** X17. The cut type that [3.ComputeCutSizeProbabilities.py] derives from
    the disturbance and origin codes of an intervention is the one that
    this script derives, unless the disturbance code is the empty text:
    then this script keeps the empty text (or its category) and the other
    one falls back on the origin code. *)
Theorem cut_types_of_the_two_scripts (cats : table) (perturb origine : option string) :
  (perturb <> Some "" ->
   CutSize.CUTTYPE cats perturb origine
   = reclassify_cuttype cats (choose_cuttype perturb origine))
  /\ (perturb = Some "" ->
      reclassify_cuttype cats (choose_cuttype perturb origine)
      = Some (Reference.canonical_category cats "")
      /\ CutSize.CUTTYPE cats perturb origine
         = reclassify_cuttype cats origine).
Proof.
  assert (Hsame : forall code, CutSize.reclassify cats code = reclassify_cuttype cats code).
  { intros [c|]; [|reflexivity]. unfold CutSize.reclassify, reclassify_cuttype.
    destruct (cats !! c) as [e|]; [|reflexivity]. by destruct (e !! "english_category"). }
  split.
  - intros Hp. unfold CutSize.CUTTYPE. rewrite Hsame. f_equal.
    unfold CutSize.create_cuttype, choose_cuttype, CutSize.truthy, notna.
    destruct perturb as [p|]; [|reflexivity].
    destruct (String.eqb_spec p "") as [->|_]; [congruence|reflexivity].
  - intros ->. split.
    + unfold choose_cuttype, notna, reclassify_cuttype, Reference.canonical_category.
      destruct (cats !! "") as [e|]; [|reflexivity]. by destruct (e !! "english_category").
    + unfold CutSize.CUTTYPE. by rewrite Hsame.
Qed.

Lemma cut_types_of_the_two_scripts_witness :
  CutSize.CUTTYPE Samples.cut_table (Some "CT") (Some "CPR")
  = reclassify_cuttype Samples.cut_table (choose_cuttype (Some "CT") (Some "CPR")).
Proof.
  apply (proj1 (cut_types_of_the_two_scripts Samples.cut_table (Some "CT") (Some "CPR"))).
  discriminate.
Defined.

End TwoScripts.
